(** * Polynomial<int>: a shallow embedding of [19 Utilities/Polynomial.cpp]

    The class template [Polynomial<T>] is modelled at the instantiation the
    program itself uses, [T = int].  Every member function is translated
    statement by statement into a function in the [outcome] monad below, so
    that the three ways a call can end (a value, the exception raised by an
    array [new]-expression, undefined behaviour) stay visible. *)

From Stdlib Require Import ZArith Lia String Ascii DecimalString.
From stdpp Require Import base tactics option list numbers.

Local Open Scope Z_scope.

(** ** The coefficient type [int] *)

Module Int.

Definition min_int : Z := - 2 ^ 31.
Definition max_int : Z := 2 ^ 31 - 1.

(** Two's complement reduction of a mathematical integer to 32 bits. *)
Definition wrap (z : Z) : Z := (z + 2 ^ 31) mod 2 ^ 32 - 2 ^ 31.

Definition in_range (z : Z) : bool := (min_int <=? z) && (z <=? max_int).

Definition add (a b : Z) : Z := wrap (a + b).
Definition sub (a b : Z) : Z := wrap (a - b).
Definition mul (a b : Z) : Z := wrap (a * b).
(** [a / b] on [int] truncates towards zero. *)
Definition div (a b : Z) : Z := wrap (a ÷ b).
(** [std::abs] on [int]. *)
Definition abs (a : Z) : Z := wrap (Z.abs a).

(** [os << v] for an [int]: decimal digits, a leading minus sign when
    negative. *)
Definition show (z : Z) : string := NilZero.string_of_int (Z.to_int z).

End Int.

(** ** Outcomes of a call *)

Inductive outcome (A : Type) : Type :=
| Returns (a : A)
| Throws_bad_array_new_length
| Undefined.

Arguments Returns {A} a.
Arguments Throws_bad_array_new_length {A}.
Arguments Undefined {A}.

#[global] Instance outcome_ret : MRet outcome := fun A a => Returns a.
#[global] Instance outcome_bind : MBind outcome := fun A B f m =>
  match m with
  | Returns a => f a
  | Throws_bad_array_new_length => Throws_bad_array_new_length
  | Undefined => Undefined
  end.

(** ** Loops

    [for (int i = lo; i <= hi; ++i)] visits [upto lo hi];
    [for (int i = hi; i >= lo; --i)] visits [downto hi lo]. *)

Fixpoint zrange (lo : Z) (n : nat) : list Z :=
  match n with
  | O => []
  | S n' => lo :: zrange (lo + 1) n'
  end.

Definition upto (lo hi : Z) : list Z := zrange lo (Z.to_nat (hi - lo + 1)).
Definition downto (hi lo : Z) : list Z := rev (upto lo hi).

Fixpoint for_each {S : Type} (idx : list Z) (body : Z → S → outcome S) (s : S)
  : outcome S :=
  match idx with
  | [] => Returns s
  | i :: rest => s' ← body i s; for_each rest body s'
  end.

(** ** Members, pointers and buffers *)

(** A data member without an initialiser holds an indeterminate value until
    it is first assigned. *)
Inductive member (A : Type) : Type :=
| Indeterminate
| Init (a : A).

Arguments Indeterminate {A}.
Arguments Init {A} a.

Definition rd {A : Type} (m : member A) : outcome A :=
  match m with
  | Init a => Returns a
  | Indeterminate => Undefined
  end.

(** A [T*]: the null pointer, or the array it owns (index 0 first). *)
Inductive ptr : Type :=
| nullptr
| buf (cells : list Z).

(** [p[i]] as an rvalue. *)
Definition load (p : ptr) (i : Z) : outcome Z :=
  match p with
  | nullptr => Undefined
  | buf cells =>
      if (0 <=? i) && (i <? Z.of_nat (length cells))
      then match cells !! Z.to_nat i with
           | Some v => Returns v
           | None => Undefined
           end
      else Undefined
  end.

(** [p[i] = v]. *)
Definition store (p : ptr) (i : Z) (v : Z) : outcome ptr :=
  match p with
  | nullptr => Undefined
  | buf cells =>
      if (0 <=? i) && (i <? Z.of_nat (length cells))
      then Returns (buf (<[Z.to_nat i := v]> cells))
      else Undefined
  end.

(** [new T[n]{0}] with a run-time [n].  The braced list has one
    initialiser clause, so the expression is erroneous when [n] is negative
    and also when [n] is zero (more clauses than elements); an erroneous
    array size makes the new-expression throw [std::bad_array_new_length]
    ([expr.new]).  Otherwise the first element is 0 and the rest are
    value-initialised, i.e. 0 as well. *)
Definition new_zeroed (n : Z) : outcome ptr :=
  if n <? 1 then Throws_bad_array_new_length
  else Returns (buf (replicate (Z.to_nat n) 0)).

(** [delete[] terms]: a no-op on the null pointer, releases an owned array,
    undefined on a pointer that was never given a value. *)
Definition delete_array (t : member ptr) : outcome () :=
  match t with
  | Indeterminate => Undefined
  | Init _ => Returns ()
  end.

(** ** The class *)

Record Polynomial : Type := mkPolynomial {
  terms : member ptr;    (* T* terms *)
  degree_ : member Z     (* int degree_ *)
}.

Definition with_degree_ (p : Polynomial) (d : Z) : Polynomial :=
  {| terms := terms p; degree_ := Init d |}.
Definition with_terms (p : Polynomial) (t : ptr) : Polynomial :=
  {| terms := Init t; degree_ := degree_ p |}.

(** [Polynomial()=default;] neither member has a default initialiser, so a
    default-initialised object ([Polynomial<T> result;]) has both
    indeterminate. *)
Definition Polynomial_default : Polynomial :=
  {| terms := Indeterminate; degree_ := Indeterminate |}.

(** [~Polynomial()] *)
Definition Polynomial_destroy (p : Polynomial) : outcome () :=
  delete_array (terms p).

(** A new-expression evaluated while the local object [result] is alive.
    When it throws, the stack is unwound through [result]: its destructor
    runs before the exception leaves the function. *)
Definition unwinding {A : Type} (result : Polynomial) (m : outcome A)
  : outcome A :=
  match m with
  | Throws_bad_array_new_length =>
      _ ← Polynomial_destroy result; Throws_bad_array_new_length
  | _ => m
  end.

(** [Polynomial(std::initializer_list<T> coeffs)] *)
Definition Polynomial_init (coeffs : list Z) : outcome Polynomial :=
  let d := Z.of_nat (length coeffs) - 1 in
  t ← new_zeroed (d + 1);
  '(t, _) ← foldl (fun (st : outcome (ptr * Z)) coeff =>
                     '(t, i) ← st;
                     t' ← store t i coeff;
                     mret (t', i - 1))
                  (Returns (t, d)) coeffs;
  mret {| terms := Init t; degree_ := Init d |}.

(** [Polynomial(Polynomial&& other)]: the new object, and [other] as the
    constructor leaves it. *)
Definition Polynomial_move (other : Polynomial) : Polynomial * Polynomial :=
  ({| terms := terms other; degree_ := degree_ other |},
   {| terms := Init nullptr; degree_ := Init (-1) |}).

(** [int degree() const] *)
Definition degree (p : Polynomial) : outcome Z := rd (degree_ p).

(** [T operator[](int exp) const] *)
Definition get (p : Polynomial) (exp : Z) : outcome Z :=
  d ← rd (degree_ p);
  if (exp <=? d) && (exp >=? 0)
  then t ← rd (terms p); load t exp
  else Returns 0.

(** [terms[i]] read as an rvalue inside a member function of [p]. *)
Definition load_term (p : Polynomial) (i : Z) : outcome Z :=
  t ← rd (terms p); load t i.

(** [r.terms[i] = v].  The pointer stays the same; only the array it points
    to changes. *)
Definition store_term (r : Polynomial) (i v : Z) : outcome Polynomial :=
  t ← rd (terms r); t' ← store t i v; mret (with_terms r t').

(** Loop counters, degrees and array sizes are [int]s as well, but no array
    that fits in memory brings them near [INT_MAX]; their arithmetic is
    written in [Z].  Coefficient arithmetic goes through [Int]. *)

(** [std::pow(x, i)] with two [int] arguments is computed and returned as a
    [double].  It is finite exactly when the power rounds below the binary64
    overflow threshold. *)
Definition pow_finite (x i : Z) : bool := Z.abs (x ^ i) <? 2 ^ 1024 - 2 ^ 970.

(** [result += t * std::pow(x, i)] for [int result, t, x].  The product and
    the sum are computed in [double] and the sum is converted back to [int],
    which is undefined unless the value is in the range of [int].  A sum in
    that range is reached without rounding (every integer up to 2^53 is a
    [double], [std::pow] is exact on exactly representable powers, and a
    rounded product is too large for the sum to come back into range); an
    infinite power makes the sum infinite or NaN. *)
Definition add_term (result t x i : Z) : outcome Z :=
  let s := result + t * x ^ i in
  if pow_finite x i && Int.in_range s then Returns s else Undefined.

(** [T evaluate(T x) const] *)
Definition evaluate (p : Polynomial) (x : Z) : outcome Z :=
  let result := 0 in
  d ← rd (degree_ p);
  for_each (upto 0 d)
    (fun i result => t ← load_term p i; add_term result t x i)
    result.

(** [Polynomial derivative() const] *)
Definition derivative (p : Polynomial) : outcome Polynomial :=
  let result := Polynomial_default in
  d ← rd (degree_ p);
  let result := with_degree_ result (d - 1) in
  t ← unwinding result (new_zeroed d);
  let result := with_terms result t in
  for_each (upto 1 d)
    (fun i result => c ← load_term p i; store_term result (i - 1) (Int.mul c i))
    result.

(** [Polynomial integral() const] *)
Definition integral (p : Polynomial) : outcome Polynomial :=
  let result := Polynomial_default in
  d ← rd (degree_ p);
  let result := with_degree_ result (d + 1) in
  t ← unwinding result (new_zeroed (d + 2));
  let result := with_terms result t in
  for_each (upto 0 d)
    (fun i result =>
       c ← load_term p i; store_term result (i + 1) (Int.div c (i + 1)))
    result.

(** [Polynomial operator+(const Polynomial& other) const] *)
Definition add (p other : Polynomial) : outcome Polynomial :=
  d1 ← rd (degree_ p);
  d2 ← rd (degree_ other);
  let max_degree := Z.max d1 d2 in
  let result := Polynomial_default in
  let result := with_degree_ result max_degree in
  t ← unwinding result (new_zeroed (max_degree + 1));
  let result := with_terms result t in
  for_each (upto 0 max_degree)
    (fun i result =>
       a ← get p i; b ← get other i; store_term result i (Int.add a b))
    result.

(** [Polynomial operator-(const Polynomial& other) const] *)
Definition subtract (p other : Polynomial) : outcome Polynomial :=
  d1 ← rd (degree_ p);
  d2 ← rd (degree_ other);
  let max_degree := Z.max d1 d2 in
  let result := Polynomial_default in
  let result := with_degree_ result max_degree in
  t ← unwinding result (new_zeroed (max_degree + 1));
  let result := with_terms result t in
  for_each (upto 0 max_degree)
    (fun i result =>
       a ← get p i; b ← get other i; store_term result i (Int.sub a b))
    result.

(** [Polynomial operator*(const Polynomial& other) const] *)
Definition multiply (p other : Polynomial) : outcome Polynomial :=
  d1 ← rd (degree_ p);
  d2 ← rd (degree_ other);
  let new_degree := d1 + d2 in
  let result := Polynomial_default in
  let result := with_degree_ result new_degree in
  t ← unwinding result (new_zeroed (new_degree + 1));
  let result := with_terms result t in
  for_each (upto 0 d1)
    (fun i result =>
       for_each (upto 0 d2)
         (fun j result =>
            cur ← load_term result (i + j);
            a ← load_term p i;
            b ← load_term other j;
            store_term result (i + j) (Int.add cur (Int.mul a b)))
         result)
    result.

(** The loop of [operator==], which leaves at the first difference. *)
Fixpoint equals_loop (idx : list Z) (p other : Polynomial) : outcome bool :=
  match idx with
  | [] => Returns true
  | i :: rest =>
      a ← load_term p i;
      b ← load_term other i;
      if negb (a =? b) then Returns false else equals_loop rest p other
  end.

(** [bool operator==(const Polynomial& other) const] *)
Definition equals (p other : Polynomial) : outcome bool :=
  d1 ← rd (degree_ p);
  d2 ← rd (degree_ other);
  if negb (d1 =? d2) then Returns false
  else equals_loop (upto 0 d1) p other.

(** One turn of the loop of [operator<<]; the state is what has been written
    to the stream so far and the flag [first]. *)
Definition print_term (poly : Polynomial) (i : Z) (st : string * bool)
  : outcome (string * bool) :=
  let '(os, first) := st in
  c ← load_term poly i;
  let os := if negb first && (c >=? 0) then (os ++ " + ")%string else os in
  let os := if c <? 0 then (os ++ " - ")%string else os in
  let os := if negb (Int.abs c =? 1) || (i =? 0)
            then (os ++ Int.show (Int.abs c))%string else os in
  let os := if negb (i =? 0) then (os ++ "x")%string else os in
  let os := if i >? 1 then (os ++ "^" ++ Int.show i)%string else os in
  Returns (os, false).

(** [std::ostream& operator<<(std::ostream& os, const Polynomial& poly)],
    as the characters appended to a stream that held [os]. *)
Definition print (os : string) (poly : Polynomial) : outcome string :=
  let first := true in
  d ← rd (degree_ poly);
  '(os, _) ← for_each (downto d 0) (print_term poly) (os, first);
  mret os.

Definition to_display_string (poly : Polynomial) : outcome string :=
  print "" poly.

(** ** The remaining members *)

(** [new T[n]] without an initialiser.  A negative [n] throws
    [std::bad_array_new_length]; [n = 0] yields an array of no elements.
    The elements are not initialised: [junk i] stands for whatever cell [i]
    of the fresh storage holds.  The functions below write every cell before
    any is read. *)
Definition new_uninit (junk : Z → Z) (n : Z) : outcome ptr :=
  if n <? 0 then Throws_bad_array_new_length
  else Returns (buf (junk <$> zrange 0 (Z.to_nat n))).

(** [std::copy(src, src + n, dst)]: the loop [*dst++ = *src++] over the [n]
    elements.  A range that ends before it starts is not a valid range. *)
Definition std_copy (src : ptr) (n : Z) (dst : ptr) : outcome ptr :=
  if n <? 0 then Undefined
  else for_each (upto 0 (n - 1))
         (fun i dst => v ← load src i; store dst i v) dst.

(** [Polynomial(const Polynomial& other)] *)
Definition Polynomial_copy (junk : Z → Z) (other : Polynomial)
  : outcome Polynomial :=
  d ← rd (degree_ other);
  t ← new_uninit junk (d + 1);
  src ← rd (terms other);
  t ← std_copy src (d + 1) t;
  mret {| terms := Init t; degree_ := Init d |}.

(** [Polynomial& operator=(const Polynomial& other)]; [self] tells whether
    [this == &other].  The result is [*this] after the call. *)
Definition copy_assign (junk : Z → Z) (self : bool) (this other : Polynomial)
  : outcome Polynomial :=
  if negb self then
    _ ← delete_array (terms this);
    d ← rd (degree_ other);
    let this := with_degree_ this d in
    t ← new_uninit junk (d + 1);
    let this := with_terms this t in
    src ← rd (terms other);
    t ← std_copy src (d + 1) t;
    mret (with_terms this t)
  else Returns this.

(** [Polynomial& operator=(Polynomial&& other)]: [*this] and [other] after
    the call. *)
Definition move_assign (self : bool) (this other : Polynomial)
  : outcome (Polynomial * Polynomial) :=
  if negb self then
    _ ← delete_array (terms this);
    let this := {| terms := terms other; degree_ := degree_ other |} in
    let other := {| terms := Init nullptr; degree_ := Init (-1) |} in
    mret (this, other)
  else Returns (this, other).

(** [T& operator[](int exp)], used as [p[exp] = v].  Both returns are the
    same unchecked [terms[exp]]. *)
Definition set (p : Polynomial) (exp v : Z) : outcome Polynomial :=
  d ← rd (degree_ p);
  if (exp <=? d) && (exp >=? 0)
  then store_term p exp v
  else store_term p exp v.

(** [Polynomial operator*(T scalar) const] *)
Definition multiply_scalar (junk : Z → Z) (p : Polynomial) (scalar : Z)
  : outcome Polynomial :=
  let result := Polynomial_default in
  d ← rd (degree_ p);
  let result := with_degree_ result d in
  t ← unwinding result (new_uninit junk (d + 1));
  let result := with_terms result t in
  for_each (upto 0 d)
    (fun i result => c ← load_term p i; store_term result i (Int.mul c scalar))
    result.

(** [bool operator!=(const Polynomial& other) const] *)
Definition not_equals (p other : Polynomial) : outcome bool :=
  b ← equals p other; mret (negb b).

(** ** Objects that satisfy the class invariant *)

(** The object whose buffer holds [cells] (index 0 = constant term) and
    whose degree is the last index of that buffer. *)
Definition poly_of (cells : list Z) : Polynomial :=
  {| terms := Init (buf cells); degree_ := Init (Z.of_nat (length cells) - 1) |}.

(** The state both move operations leave their source in. *)
Definition moved_from : Polynomial :=
  {| terms := Init nullptr; degree_ := Init (-1) |}.

Definition coefficients (p : Polynomial) : list Z :=
  match terms p with
  | Init (buf cells) => cells
  | _ => []
  end.

(** A non-empty polynomial: degree at least 0, a buffer of degree + 1
    coefficients, each of them an [int]. *)
Definition valid (p : Polynomial) : bool :=
  match terms p, degree_ p with
  | Init (buf cells), Init d =>
      (0 <=? d) && (Z.of_nat (length cells) =? d + 1)
      && forallb Int.in_range cells
  | _, _ => false
  end.

(** ** Specification-side definitions

    What the operations are meant to compute, written independently of the
    loops above; the theorems below relate the two. *)

(** [coefficients[i]], for an index inside the buffer. *)
Definition coeff_at (cells : list Z) (i : Z) : Z :=
  default 0 (cells !! Z.to_nat i).

(** What the const [operator[]] yields on a buffer [cells]. *)
Definition get_val (cells : list Z) (exp : Z) : Z :=
  if (0 <=? exp) && (exp <? Z.of_nat (length cells)) then coeff_at cells exp
  else 0.

(** [p.add(q).subtract(q).equals(p)] *)
Definition add_subtract_equals (p q : Polynomial) : outcome bool :=
  s ← add p q; r ← subtract s q; equals r p.

(** The term [coefficients[i] · x^i], on its own. *)
Definition term (cells : list Z) (x i : Z) : Z := coeff_at cells i * x ^ i.

(** The first [k] terms summed left to right, from index 0. *)
Definition partial_sum (cells : list Z) (x : Z) (k : nat) : Z :=
  foldl Z.add 0 (term cells x <$> zrange 0 k).

(** Turn [i] of the loop stays inside what [int] and [double] can hold: the
    power is finite and the sum of the terms up to index [i] is an [int]. *)
Definition step_fits (cells : list Z) (x i : Z) : bool :=
  pow_finite x i && Int.in_range (partial_sum cells x (Z.to_nat i + 1)).

Definition sums_fit (cells : list Z) (x : Z) : bool :=
  forallb (step_fits cells x) (zrange 0 (length cells)).






(** [f 0 + f 1 + ... + f (m - 1)] in [Z]. *)
Definition zsum (f : Z → Z) (m : nat) : Z := foldl Z.add 0 (f <$> zrange 0 m).

(** The first [m] products [p_i · q_(k-i)] that make up coefficient [k]
    of a product, summed in [Z]; a [q] index outside the buffer contributes
    nothing. *)
Definition convolution_upto (P Q : list Z) (k : Z) (m : nat) : Z :=
  zsum (fun i => coeff_at P i * get_val Q (k - i)) m.

(** Coefficient [k] of the product as a mathematical integer:
    the sum of [p_i · q_j] over i + j = k. *)
Definition convolution (P Q : list Z) (k : Z) : Z :=
  convolution_upto P Q k (length P).

(** * Proofs *)

(** ** Basic facts *)

#[local] Arguments load : simpl never.
#[local] Arguments store : simpl never.

Lemma wrap_in_range z : Int.in_range z = true → Int.wrap z = z.
Proof.
  unfold Int.in_range, Int.wrap, Int.min_int, Int.max_int.
  intros H. apply andb_true_iff in H as [H1 H2].
  apply Z.leb_le in H1, H2.
  rewrite Z.mod_small by lia. lia.
Qed.

Lemma wrap_add_sub a b : Int.in_range a = true → Int.sub (Int.add a b) b = a.
Proof.
  intros Ha. unfold Int.sub, Int.add.
  rewrite <- (wrap_in_range a Ha) at 2.
  unfold Int.wrap. f_equal.
  replace ((a + b + 2 ^ 31) `mod` 2 ^ 32 - 2 ^ 31 - b + 2 ^ 31)
    with ((a + b + 2 ^ 31) `mod` 2 ^ 32 - b) by lia.
  rewrite Zminus_mod_idemp_l. f_equal. lia.
Qed.

Lemma zrange_length lo n : length (zrange lo n) = n.
Proof. revert lo. induction n as [|n IH]; intros lo; simpl; [done|]. by rewrite IH. Qed.

Lemma zrange_lookup n : ∀ lo k, (k < n)%nat → zrange lo n !! k = Some (lo + Z.of_nat k).
Proof.
  induction n as [|n IH]; intros lo k Hk; [lia|].
  destruct k as [|k]; simpl.
  - f_equal. lia.
  - rewrite IH by lia. f_equal. lia.
Qed.

Lemma zrange_snoc n : ∀ lo, zrange lo (S n) = zrange lo n ++ [lo + Z.of_nat n].
Proof.
  induction n as [|n IH]; intros lo.
  - simpl. f_equal. lia.
  - change (zrange lo (S (S n))) with (lo :: zrange (lo + 1) (S n)).
    rewrite IH. simpl. do 3 f_equal. lia.
Qed.

Lemma elem_of_zrange n : ∀ lo i, i ∈ zrange lo n ↔ lo ≤ i < lo + Z.of_nat n.
Proof.
  induction n as [|n IH]; intros lo i; simpl.
  - rewrite elem_of_nil. lia.
  - rewrite elem_of_cons, IH. lia.
Qed.

Lemma for_each_app {S} (body : Z → S → outcome S) xs ys s :
  for_each (xs ++ ys) body s = (s' ← for_each xs body s; for_each ys body s').
Proof.
  revert s. induction xs as [|x xs IH]; intros s; simpl; [done|].
  destruct (body x s); simpl; auto.
Qed.

Lemma for_each_skip {S} (body : Z → S → outcome S) idx s :
  (∀ i s', i ∈ idx → body i s' = Returns s') → for_each idx body s = Returns s.
Proof.
  induction idx as [|i idx IH]; intros H; simpl; [done|].
  rewrite H by left. simpl. apply IH. intros. apply H. by right.
Qed.

Lemma load_buf cells i :
  0 ≤ i < Z.of_nat (length cells) → load (buf cells) i = Returns (coeff_at cells i).
Proof.
  intros Hi. unfold load, coeff_at.
  replace ((0 <=? i) && (i <? Z.of_nat (length cells))) with true
    by (symmetry; apply andb_true_iff; split; [apply Z.leb_le|apply Z.ltb_lt]; lia).
  destruct (lookup_lt_is_Some_2 cells (Z.to_nat i)) as [v Hv]; [lia|].
  by rewrite Hv.
Qed.

Lemma load_term_poly_of cells i :
  0 ≤ i < Z.of_nat (length cells) →
  load_term (poly_of cells) i = Returns (coeff_at cells i).
Proof. intros Hi. unfold load_term. simpl. by apply load_buf. Qed.

Lemma get_poly_of cells exp : get (poly_of cells) exp = Returns (get_val cells exp).
Proof.
  unfold get, get_val. simpl.
  destruct (Z.leb_spec exp (Z.of_nat (length cells) - 1));
    destruct (Z.geb_spec exp 0); simpl;
    destruct (Z.leb_spec 0 exp); destruct (Z.ltb_spec exp (Z.of_nat (length cells)));
    simpl; try lia; try done.
  by apply load_buf.
Qed.

Lemma get_moved_from exp : get moved_from exp = Returns 0.
Proof.
  unfold get. simpl.
  destruct (Z.leb_spec exp (-1)); destruct (Z.geb_spec exp 0); simpl; try done; lia.
Qed.

Lemma store_middle pre x post v :
  store (buf (pre ++ x :: post)) (Z.of_nat (length pre)) v
  = Returns (buf (pre ++ v :: post)).
Proof.
  unfold store.
  replace ((0 <=? Z.of_nat (length pre))
           && (Z.of_nat (length pre) <? Z.of_nat (length (pre ++ x :: post))))
    with true.
  - rewrite Nat2Z.id. do 2 f_equal.
    replace (length pre) with (length pre + 0)%nat at 1 by lia.
    by rewrite insert_app_r.
  - symmetry. apply andb_true_iff. rewrite length_app. simpl.
    split; [apply Z.leb_le|apply Z.ltb_lt]; lia.
Qed.

(** A valid object is [poly_of] its own, non-empty, buffer. *)
Lemma valid_inv p :
  valid p = true →
  p = poly_of (coefficients p)
  ∧ (0 < length (coefficients p))%nat
  ∧ forallb Int.in_range (coefficients p) = true.
Proof.
  destruct p as [[|[|cells]] [|d]]; simpl; try discriminate.
  intros H. apply andb_true_iff in H as [H H3]. apply andb_true_iff in H as [H1 H2].
  apply Z.leb_le in H1. apply Z.eqb_eq in H2.
  unfold poly_of, coefficients. simpl.
  split_and!; [|lia|done]. do 2 f_equal. lia.
Qed.

Lemma valid_poly_of cells :
  (0 < length cells)%nat → forallb Int.in_range cells = true → valid (poly_of cells) = true.
Proof.
  intros Hl Hr. unfold valid. simpl. rewrite Hr.
  replace (0 <=? Z.of_nat (length cells) - 1) with true by (symmetry; apply Z.leb_le; lia).
  replace (Z.of_nat (length cells) =? Z.of_nat (length cells) - 1 + 1) with true
    by (symmetry; apply Z.eqb_eq; lia).
  done.
Qed.

Lemma coeff_at_in_range cells i :
  forallb Int.in_range cells = true → Int.in_range (coeff_at cells i) = true.
Proof.
  intros H. unfold coeff_at.
  destruct (cells !! Z.to_nat i) as [v|] eqn:E; simpl; [|done].
  rewrite forallb_forall in H. apply H.
  apply list_elem_of_In. by eapply list_elem_of_lookup_2.
Qed.

Lemma mk_poly_of cells d :
  Z.of_nat (length cells) = d + 1 →
  {| terms := Init (buf cells); degree_ := Init d |} = poly_of cells.
Proof. intros H. unfold poly_of. do 2 f_equal. lia. Qed.

Lemma map_zrange_eq (f : Z → Z) (l : list Z) :
  (∀ k v, l !! k = Some v → f (Z.of_nat k) = v) → f <$> zrange 0 (length l) = l.
Proof.
  intros H. apply list_eq. intros k. rewrite list_lookup_fmap.
  destruct (l !! k) as [v|] eqn:E.
  - rewrite zrange_lookup by (by eapply lookup_lt_Some). simpl.
    f_equal. rewrite Z.add_0_l. by apply H.
  - rewrite (lookup_ge_None_2 (zrange 0 (length l))); [done|].
    rewrite zrange_length. by apply lookup_ge_None.
Qed.

Lemma get_val_map_zrange_from (f : Z → Z) lo n i :
  0 ≤ i < Z.of_nat n → get_val (f <$> zrange lo n) i = f (lo + i).
Proof.
  intros Hi. unfold get_val, coeff_at. rewrite length_fmap, zrange_length.
  replace ((0 <=? i) && (i <? Z.of_nat n)) with true
    by (symmetry; apply andb_true_iff; split; [apply Z.leb_le|apply Z.ltb_lt]; lia).
  rewrite list_lookup_fmap, zrange_lookup by lia. simpl. f_equal. lia.
Qed.

Lemma get_val_map_zrange (f : Z → Z) n i :
  0 ≤ i < Z.of_nat n → get_val (f <$> zrange 0 n) i = f i.
Proof. intros Hi. by rewrite get_val_map_zrange_from, Z.add_0_l. Qed.

Lemma get_val_cons c cells i :
  0 ≤ i → get_val (c :: cells) (i + 1) = get_val cells i.
Proof.
  intros Hi. unfold get_val, coeff_at. cbn [length].
  replace (Z.to_nat (i + 1)) with (S (Z.to_nat i)) by lia. cbn [lookup list_lookup].
  by destruct (Z.leb_spec 0 (i + 1)); destruct (Z.leb_spec 0 i);
    destruct (Z.ltb_spec (i + 1) (Z.of_nat (S (length cells))));
    destruct (Z.ltb_spec i (Z.of_nat (length cells))); simpl; try lia.
Qed.

Lemma get_val_outside cells i :
  i < 0 ∨ Z.of_nat (length cells) ≤ i → get_val cells i = 0.
Proof.
  intros Hi. unfold get_val.
  destruct (Z.leb_spec 0 i); destruct (Z.ltb_spec i (Z.of_nat (length cells)));
    simpl; try done; lia.
Qed.

Lemma get_val_in_range cells i :
  forallb Int.in_range cells = true → Int.in_range (get_val cells i) = true.
Proof.
  intros H. unfold get_val.
  destruct ((0 <=? i) && (i <? Z.of_nat (length cells))); [|done].
  by apply coeff_at_in_range.
Qed.

(** ** Loops that fill a fresh buffer *)

(** A loop whose turn [i] performs [result.terms[i + shift] = f i] replaces a
    run of consecutive cells by the values of [f]. *)
Lemma fill_loop (body : Z → Polynomial → outcome Polynomial) (f : Z → Z)
    (shift : Z) (dg : member Z) :
  ∀ n lo pre junk post,
    length junk = n →
    Z.of_nat (length pre) = lo + shift →
    (∀ i r, lo ≤ i < lo + Z.of_nat n → body i r = store_term r (i + shift) (f i)) →
    for_each (zrange lo n) body
      {| terms := Init (buf (pre ++ junk ++ post)); degree_ := dg |}
    = Returns {| terms := Init (buf (pre ++ (f <$> zrange lo n) ++ post));
                 degree_ := dg |}.
Proof.
  induction n as [|n IH]; intros lo pre junk post Hl Hp Hb.
  - by destruct junk.
  - destruct junk as [|j junk]; [done|]. simpl in Hl.
    simpl. rewrite Hb by lia. unfold store_term. simpl.
    rewrite <- Hp, store_middle. simpl. unfold with_terms. simpl.
    specialize (IH (lo + 1) (pre ++ [f lo]) junk post).
    rewrite <- !app_assoc in IH. simpl in IH. apply IH.
    + lia.
    + rewrite length_app. simpl. lia.
    + intros i r Hi. apply Hb. lia.
Qed.

(** The common shape of the loops of [operator+] and [operator-]. *)
Lemma pointwise_loop (op : Z → Z → Z) p q (gp gq : Z → Z) dg n :
  (∀ i, get p i = Returns (gp i)) →
  (∀ i, get q i = Returns (gq i)) →
  for_each (zrange 0 n)
    (fun i result => a ← get p i; b ← get q i; store_term result i (op a b))
    {| terms := Init (buf (replicate n 0)); degree_ := dg |}
  = Returns {| terms := Init (buf ((fun i => op (gp i) (gq i)) <$> zrange 0 n));
               degree_ := dg |}.
Proof.
  intros Hp Hq.
  pose proof (fill_loop
    (fun i result => a ← get p i; b ← get q i; store_term result i (op a b))
    (fun i => op (gp i) (gq i)) 0 dg n 0 [] (replicate n 0) []) as H.
  simpl in H. rewrite !app_nil_r in H. apply H.
  - apply length_replicate.
  - done.
  - intros i r _. rewrite Hp, Hq, Z.add_0_r. done.
Qed.

Lemma new_zeroed_pos n :
  1 ≤ n → new_zeroed n = Returns (buf (replicate (Z.to_nat n) 0)).
Proof. intros H. unfold new_zeroed. by destruct (Z.ltb_spec n 1); [lia|]. Qed.

Lemma add_pointwise p q dp dq (gp gq : Z → Z) :
  degree_ p = Init dp → degree_ q = Init dq →
  (∀ i, get p i = Returns (gp i)) →
  (∀ i, get q i = Returns (gq i)) →
  0 ≤ Z.max dp dq →
  add p q = Returns
    {| terms := Init (buf ((fun i => Int.add (gp i) (gq i))
                             <$> zrange 0 (Z.to_nat (Z.max dp dq + 1))));
       degree_ := Init (Z.max dp dq) |}.
Proof.
  intros Hdp Hdq Hp Hq Hm. unfold add. rewrite Hdp, Hdq. simpl.
  rewrite new_zeroed_pos by lia. simpl. unfold upto.
  rewrite Z.sub_0_r. unfold with_terms, with_degree_. simpl.
  by apply pointwise_loop.
Qed.

Lemma subtract_pointwise p q dp dq (gp gq : Z → Z) :
  degree_ p = Init dp → degree_ q = Init dq →
  (∀ i, get p i = Returns (gp i)) →
  (∀ i, get q i = Returns (gq i)) →
  0 ≤ Z.max dp dq →
  subtract p q = Returns
    {| terms := Init (buf ((fun i => Int.sub (gp i) (gq i))
                             <$> zrange 0 (Z.to_nat (Z.max dp dq + 1))));
       degree_ := Init (Z.max dp dq) |}.
Proof.
  intros Hdp Hdq Hp Hq Hm. unfold subtract. rewrite Hdp, Hdq. simpl.
  rewrite new_zeroed_pos by lia. simpl. unfold upto.
  rewrite Z.sub_0_r. unfold with_terms, with_degree_. simpl.
  by apply pointwise_loop.
Qed.

Lemma equals_loop_refl cells idx :
  (∀ i, i ∈ idx → 0 ≤ i < Z.of_nat (length cells)) →
  equals_loop idx (poly_of cells) (poly_of cells) = Returns true.
Proof.
  induction idx as [|i idx IH]; intros H; simpl; [done|].
  rewrite load_term_poly_of by (apply H; left). simpl.
  rewrite Z.eqb_refl. simpl. apply IH. intros. apply H. by right.
Qed.

Lemma equals_refl cells : equals (poly_of cells) (poly_of cells) = Returns true.
Proof.
  unfold equals. simpl. rewrite Z.eqb_refl. simpl.
  apply equals_loop_refl. intros i Hi. unfold upto in Hi.
  apply elem_of_zrange in Hi. lia.
Qed.

(** Adding the moved-from object on either side copies the other operand. *)
Lemma add_moved_from_l cells :
  (0 < length cells)%nat → forallb Int.in_range cells = true →
  add moved_from (poly_of cells) = Returns (poly_of cells).
Proof.
  intros Hl Hr.
  rewrite (add_pointwise moved_from (poly_of cells) (-1)
             (Z.of_nat (length cells) - 1) (fun _ => 0) (get_val cells));
    try done; [|apply get_moved_from|apply get_poly_of|lia].
  rewrite Z.max_r by lia.
  replace (Z.to_nat (Z.of_nat (length cells) - 1 + 1)) with (length cells) by lia.
  f_equal. rewrite map_zrange_eq; [done|].
  intros k v Hk. unfold Int.add. rewrite Z.add_0_l.
  rewrite wrap_in_range by (by apply get_val_in_range).
  unfold get_val, coeff_at. rewrite Nat2Z.id, Hk. simpl.
  apply lookup_lt_Some in Hk.
  by destruct (Z.leb_spec 0 (Z.of_nat k));
    destruct (Z.ltb_spec (Z.of_nat k) (Z.of_nat (length cells))); simpl; try lia.
Qed.

Lemma add_moved_from_r cells :
  (0 < length cells)%nat → forallb Int.in_range cells = true →
  add (poly_of cells) moved_from = Returns (poly_of cells).
Proof.
  intros Hl Hr.
  rewrite (add_pointwise (poly_of cells) moved_from
             (Z.of_nat (length cells) - 1) (-1) (get_val cells) (fun _ => 0));
    try done; [|apply get_poly_of|apply get_moved_from|lia].
  rewrite Z.max_l by lia.
  replace (Z.to_nat (Z.of_nat (length cells) - 1 + 1)) with (length cells) by lia.
  f_equal. rewrite map_zrange_eq; [done|].
  intros k v Hk. unfold Int.add. rewrite Z.add_0_r.
  rewrite wrap_in_range by (by apply get_val_in_range).
  unfold get_val, coeff_at. rewrite Nat2Z.id, Hk. simpl.
  apply lookup_lt_Some in Hk.
  by destruct (Z.leb_spec 0 (Z.of_nat k));
    destruct (Z.ltb_spec (Z.of_nat k) (Z.of_nat (length cells))); simpl; try lia.
Qed.

(** Multiplying by the moved-from object: one of the two loops never turns,
    so the zeroed buffer of [degree_ + (-1) + 1] cells is returned as is. *)
Lemma multiply_moved_from_r cells :
  (1 < length cells)%nat →
  multiply (poly_of cells) moved_from
  = Returns (poly_of (replicate (length cells - 1) 0)).
Proof.
  intros Hl. unfold multiply. simpl.
  rewrite new_zeroed_pos by lia. simpl.
  unfold with_terms, with_degree_. simpl.
  rewrite for_each_skip by done.
  replace (Z.to_nat (Z.of_nat (length cells) - 1 + -1 + 1))
    with (length cells - 1)%nat by lia.
  f_equal. apply mk_poly_of. rewrite length_replicate. lia.
Qed.

Lemma multiply_moved_from_l cells :
  (1 < length cells)%nat →
  multiply moved_from (poly_of cells)
  = Returns (poly_of (replicate (length cells - 1) 0)).
Proof.
  intros Hl. unfold multiply. simpl.
  rewrite new_zeroed_pos by lia. simpl.
  unfold with_terms, with_degree_. simpl.
  replace (Z.to_nat (-1 + (Z.of_nat (length cells) - 1) + 1))
    with (length cells - 1)%nat by lia.
  f_equal. apply mk_poly_of. rewrite length_replicate. lia.
Qed.

(** ** The initializer-list constructor *)

Lemma Polynomial_init_loop (rest : list Z) :
  ∀ filled,
    foldl (fun (st : outcome (ptr * Z)) coeff =>
             '(t, i) ← st; t' ← store t i coeff; mret (t', i - 1))
          (Returns (buf (replicate (length rest) 0 ++ filled),
                    Z.of_nat (length rest) - 1)) rest
    = Returns (buf (rev rest ++ filled), -1).
Proof.
  induction rest as [|c rest IH]; intros filled; [done|].
  cbn [foldl length]. rewrite replicate_S_end, <- app_assoc. cbn [app mbind outcome_bind].
  pose proof (store_middle (replicate (length rest) 0) 0 filled c) as Hs.
  rewrite length_replicate in Hs.
  replace (Z.of_nat (S (length rest)) - 1) with (Z.of_nat (length rest)) by lia.
  rewrite Hs. cbn [mbind outcome_bind mret outcome_ret].
  cbn [rev]. rewrite <- app_assoc. exact (IH (c :: filled)).
Qed.

(** The first listed value becomes the leading coefficient: the buffer is
    the list reversed. *)
Lemma Polynomial_init_rev (coeffs : list Z) :
  (0 < length coeffs)%nat →
  Polynomial_init coeffs = Returns (poly_of (rev coeffs)).
Proof.
  intros Hl. unfold Polynomial_init.
  rewrite new_zeroed_pos by lia. cbn [unwinding mbind outcome_bind].
  replace (Z.to_nat (Z.of_nat (length coeffs) - 1 + 1)) with (length coeffs) by lia.
  pose proof (Polynomial_init_loop coeffs []) as H. rewrite !app_nil_r in H.
  rewrite H. cbn [mbind outcome_bind mret outcome_ret].
  f_equal. apply mk_poly_of. rewrite length_rev. lia.
Qed.

Lemma Polynomial_init_valid (coeffs : list Z) p :
  (0 < length coeffs)%nat → forallb Int.in_range coeffs = true →
  Polynomial_init coeffs = Returns p → valid p = true.
Proof.
  intros Hl Hr. rewrite Polynomial_init_rev by done. intros [= <-].
  apply valid_poly_of; [by rewrite length_rev|].
  apply forallb_forall. intros x Hx. rewrite forallb_forall in Hr.
  apply Hr. by apply in_rev.
Qed.

(** * The claims *)

(** ** C1 *)

(** C1, the claim as stated fails: with the non-empty operand [x + 2] and
    the empty (moved-from) operand, both [operator+] and [operator*] return a
    polynomial; nothing is rejected. *)
Lemma empty_operand_is_not_rejected :
  degree moved_from = Returns (-1)
  ∧ add (poly_of [2; 1]) moved_from = Returns (poly_of [2; 1])
  ∧ multiply (poly_of [2; 1]) moved_from = Returns (poly_of [0]).
Proof. by split_and!. Qed.

(** C1, amended: no operand is rejected as invalid.  With one operand in the
    empty (moved-from) state and the other a non-empty polynomial [q],
    [operator+] returns a polynomial with the degree and the coefficients of
    [q], in either order of the operands; and when the degree of [q] is at
    least 1, [operator*] returns, in either order, the polynomial of one
    degree less whose coefficients are all zero. *)
Theorem empty_operand_add_multiply (q : Polynomial) :
  valid q = true →
  add q moved_from = Returns q
  ∧ add moved_from q = Returns q
  ∧ ∀ d, degree q = Returns d → 1 ≤ d →
      multiply q moved_from = Returns (poly_of (replicate (Z.to_nat d) 0))
      ∧ multiply moved_from q = Returns (poly_of (replicate (Z.to_nat d) 0)).
Proof.
  intros Hv. destruct (valid_inv q Hv) as (Hq & Hl & Hr).
  rewrite Hq. split_and!.
  - by apply add_moved_from_r.
  - by apply add_moved_from_l.
  - intros d [= <-] Hd.
    replace (Z.to_nat (Z.of_nat (length (coefficients q)) - 1))
      with (length (coefficients q) - 1)%nat by lia.
    split; [apply multiply_moved_from_r|apply multiply_moved_from_l]; lia.
Qed.

Lemma empty_operand_add_multiply_witness :
  let q := poly_of [-4; 0; 3] in
  add q moved_from = Returns q
  ∧ add moved_from q = Returns q
  ∧ multiply q moved_from = Returns (poly_of [0; 0])
  ∧ multiply moved_from q = Returns (poly_of [0; 0]).
Proof.
  intros q.
  destruct (empty_operand_add_multiply q eq_refl) as (H1 & H2 & H3).
  destruct (H3 2 eq_refl ltac:(lia)) as [H4 H5].
  exact (conj H1 (conj H2 (conj H4 H5))).
Defined.

(** ** C2 *)

(** C2: on a non-empty polynomial the const [operator[]] always returns; it
    returns 0 for every exponent below 0 or above the degree, and
    [coefficients[exp]] for every exponent from 0 to the degree. *)
Theorem get_total (p : Polynomial) (exp : Z) :
  valid p = true →
  ∃ d, degree p = Returns d
    ∧ (exp < 0 ∨ d < exp → get p exp = Returns 0)
    ∧ (0 ≤ exp ≤ d →
       ∃ c, coefficients p !! Z.to_nat exp = Some c ∧ get p exp = Returns c).
Proof.
  intros Hv. destruct (valid_inv p Hv) as (Hp & Hl & Hr).
  exists (Z.of_nat (length (coefficients p)) - 1).
  split_and!.
  - by rewrite Hp at 1.
  - intros Hexp. rewrite Hp, get_poly_of, get_val_outside; [done|lia].
  - intros Hexp.
    destruct (lookup_lt_is_Some_2 (coefficients p) (Z.to_nat exp)) as [c Hc]; [lia|].
    exists c. split; [done|].
    rewrite Hp at 1. rewrite get_poly_of. unfold get_val, coeff_at. rewrite Hc.
    by destruct (Z.leb_spec 0 exp);
      destruct (Z.ltb_spec exp (Z.of_nat (length (coefficients p)))); simpl; try lia.
Qed.

Lemma get_total_witness :
  get (poly_of [-4; 0; 3]) (-7) = Returns 0
  ∧ get (poly_of [-4; 0; 3]) 3 = Returns 0
  ∧ get (poly_of [-4; 0; 3]) 2 = Returns 3.
Proof.
  destruct (get_total (poly_of [-4; 0; 3]) (-7) eq_refl) as (d1 & Hd1 & Ho1 & _).
  destruct (get_total (poly_of [-4; 0; 3]) 3 eq_refl) as (d2 & Hd2 & Ho2 & _).
  destruct (get_total (poly_of [-4; 0; 3]) 2 eq_refl) as (d3 & Hd3 & _ & Hi3).
  injection Hd1 as <-. injection Hd2 as <-. injection Hd3 as <-.
  destruct (Hi3 ltac:(lia)) as (c & Hc & Hg). injection Hc as <-.
  exact (conj (Ho1 ltac:(lia)) (conj (Ho2 ltac:(lia)) Hg)).
Defined.

(** ** C3 *)

(** C3, at the failing input: the defaulted default constructor assigns
    neither member, so the degree of a default-initialised object is
    indeterminate, not -1, and its pointer is indeterminate, not null.  The
    empty state with a null pointer and degree -1 is what the move
    constructor leaves behind. *)
Theorem default_constructor_leaves_members_indeterminate :
  degree_ Polynomial_default = Indeterminate
  ∧ terms Polynomial_default = Indeterminate
  ∧ degree Polynomial_default ≠ Returns (-1)
  ∧ ∀ p, snd (Polynomial_move p) = moved_from.
Proof. by split_and!. Qed.

(** ** C10 *)

(** C10: for a non-empty polynomial [q] and the empty object [e] that a move
    leaves behind, [e + q] and [q + e] both return, and each result compares
    equal to [q] under [operator==], with the degree and the coefficients of
    [q]. *)
Theorem add_empty_operand (q other : Polynomial) :
  valid q = true →
  let e := snd (Polynomial_move other) in
  degree e = Returns (-1) ∧ terms e = Init nullptr
  ∧ ∃ r1 r2,
      add e q = Returns r1 ∧ add q e = Returns r2
      ∧ equals r1 q = Returns true ∧ equals r2 q = Returns true
      ∧ degree r1 = degree q ∧ coefficients r1 = coefficients q
      ∧ degree r2 = degree q ∧ coefficients r2 = coefficients q.
Proof.
  intros Hv e. destruct (valid_inv q Hv) as (Hq & Hl & Hr).
  split_and!; [done..|]. exists q, q.
  change e with moved_from.
  split_and!; try done.
  - rewrite Hq. by apply add_moved_from_l.
  - rewrite Hq. by apply add_moved_from_r.
  - rewrite Hq. apply equals_refl.
  - rewrite Hq. apply equals_refl.
Qed.

Lemma add_empty_operand_witness :
  let q := poly_of [2; 1] in
  let e := snd (Polynomial_move (poly_of [7])) in
  ∃ r1 r2, add e q = Returns r1 ∧ add q e = Returns r2
           ∧ equals r1 q = Returns true ∧ equals r2 q = Returns true.
Proof.
  intros q e.
  destruct (add_empty_operand q (poly_of [7]) eq_refl)
    as (_ & _ & r1 & r2 & H1 & H2 & H3 & H4 & _).
  exists r1, r2. exact (conj H1 (conj H2 (conj H3 H4))).
Defined.

(** ** C7 *)

Lemma map_zrange_ext (f g : Z → Z) n :
  ∀ lo, (∀ i, lo ≤ i < lo + Z.of_nat n → f i = g i) →
        f <$> zrange lo n = g <$> zrange lo n.
Proof.
  induction n as [|n IH]; intros lo H; simpl; [done|].
  rewrite H by lia. f_equal. apply IH. intros. apply H. lia.
Qed.

(** Adding and then subtracting [q] gives back the coefficients of [p],
    padded with zeros up to the larger of the two degrees. *)
Lemma add_subtract_padded (P Q : list Z) :
  (0 < length P)%nat → forallb Int.in_range P = true →
  let n := Z.to_nat (Z.max (Z.of_nat (length P) - 1) (Z.of_nat (length Q) - 1) + 1) in
  ∃ s, add (poly_of P) (poly_of Q) = Returns s
     ∧ subtract s (poly_of Q) = Returns (poly_of (get_val P <$> zrange 0 n)).
Proof.
  intros Hl Hr n.
  set (dp := Z.of_nat (length P) - 1). set (dq := Z.of_nat (length Q) - 1).
  set (L1 := (fun i => Int.add (get_val P i) (get_val Q i)) <$> zrange 0 n).
  assert (HL1 : length L1 = n) by (unfold L1; by rewrite length_fmap, zrange_length).
  exists (poly_of L1). split.
  - rewrite (add_pointwise _ _ dp dq (get_val P) (get_val Q));
      [|done|done|apply get_poly_of|apply get_poly_of|lia].
    f_equal. apply mk_poly_of. fold n. fold L1. lia.
  - rewrite (subtract_pointwise _ _ (Z.max dp dq) dq (get_val L1) (get_val Q));
      [| |done|apply get_poly_of|apply get_poly_of|lia].
    + rewrite Z.max_l by lia. fold n. f_equal.
      rewrite (map_zrange_ext _ (get_val P)).
      * apply mk_poly_of. rewrite length_fmap, zrange_length. lia.
      * intros i Hi. unfold L1. rewrite get_val_map_zrange by lia.
        apply wrap_add_sub. by apply get_val_in_range.
    + unfold poly_of. simpl. f_equal. lia.
Qed.

(** C7, the claim as stated fails: for [p = 1] (degree 0) and [q = x]
    (degree 1) the round trip has degree 1, and [operator==] answers false. *)
Lemma add_subtract_not_equal_when_q_is_longer :
  valid (poly_of [1]) = true ∧ valid (poly_of [0; 1]) = true
  ∧ Polynomial_init [1] = Returns (poly_of [1])
  ∧ Polynomial_init [1; 0] = Returns (poly_of [0; 1])
  ∧ add_subtract_equals (poly_of [1]) (poly_of [0; 1]) = Returns false.
Proof. by split_and!. Qed.

(** C7, amended: for all non-empty polynomials [p] and [q],
    [p.add(q).subtract(q)] returns a polynomial that reads, through the const
    [operator[]], the same coefficient as [p] at every exponent; and when
    the degree of [q] does not exceed the degree of [p],
    [p.add(q).subtract(q).equals(p)] is true. *)
Theorem add_subtract_round_trip (p q : Polynomial) :
  valid p = true → valid q = true →
  ∃ s r dp dq,
    add p q = Returns s ∧ subtract s q = Returns r
    ∧ degree p = Returns dp ∧ degree q = Returns dq
    ∧ (∀ i, get r i = get p i)
    ∧ (dq ≤ dp → add_subtract_equals p q = Returns true).
Proof.
  intros Hvp Hvq.
  destruct (valid_inv p Hvp) as (Hp & Hlp & Hrp).
  destruct (valid_inv q Hvq) as (Hq & Hlq & Hrq).
  set (P := coefficients p) in *. set (Q := coefficients q) in *.
  destruct (add_subtract_padded P Q Hlp Hrp) as (s & Hs & Hr).
  set (n := Z.to_nat (Z.max (Z.of_nat (length P) - 1) (Z.of_nat (length Q) - 1) + 1)) in *.
  exists s, (poly_of (get_val P <$> zrange 0 n)),
    (Z.of_nat (length P) - 1), (Z.of_nat (length Q) - 1).
  rewrite Hp, Hq. split_and!; try done.
  - intros i. rewrite !get_poly_of. f_equal.
    destruct (decide (0 ≤ i < Z.of_nat n)) as [Hi|Hi].
    + by rewrite get_val_map_zrange.
    + rewrite !get_val_outside; [done|lia|].
      rewrite length_fmap, zrange_length. lia.
  - intros Hd. unfold add_subtract_equals. rewrite Hs. simpl. rewrite Hr. simpl.
    replace n with (length P) by lia.
    rewrite map_zrange_eq; [apply equals_refl|].
    intros k v Hk. unfold get_val, coeff_at. rewrite Nat2Z.id, Hk. simpl.
    apply lookup_lt_Some in Hk.
    by destruct (Z.leb_spec 0 (Z.of_nat k));
      destruct (Z.ltb_spec (Z.of_nat k) (Z.of_nat (length P))); simpl; try lia.
Qed.

Lemma add_subtract_round_trip_witness :
  add_subtract_equals (poly_of [-4; 0; 3]) (poly_of [2; 1]) = Returns true.
Proof.
  destruct (add_subtract_round_trip (poly_of [-4; 0; 3]) (poly_of [2; 1])
              eq_refl eq_refl) as (s & r & dp & dq & _ & _ & Hdp & Hdq & _ & H).
  injection Hdp as <-. injection Hdq as <-.
  exact (H ltac:(lia)).
Defined.

(** ** C4 *)

Lemma partial_sum_S cells x k :
  partial_sum cells x (S k) = partial_sum cells x k + term cells x (Z.of_nat k).
Proof.
  unfold partial_sum. rewrite zrange_snoc, fmap_app, foldl_app. simpl.
  by rewrite Z.add_0_l.
Qed.

Lemma evaluate_loop cells x k :
  (k ≤ length cells)%nat →
  for_each (zrange 0 k)
    (fun i result => t ← load_term (poly_of cells) i; add_term result t x i) 0
  = if forallb (step_fits cells x) (zrange 0 k)
    then Returns (partial_sum cells x k) else Undefined.
Proof.
  induction k as [|k IH]; intros Hk; [done|].
  rewrite zrange_snoc, for_each_app, forallb_app, IH by lia.
  destruct (forallb (step_fits cells x) (zrange 0 k)); [|done].
  cbn [mbind outcome_bind for_each forallb andb].
  rewrite Z.add_0_l, load_term_poly_of by lia.
  cbn [mbind outcome_bind]. unfold add_term, step_fits.
  rewrite Nat2Z.id, Nat.add_1_r, partial_sum_S. unfold term.
  by destruct (pow_finite x (Z.of_nat k)
               && Int.in_range (partial_sum cells x k
                                + coeff_at cells (Z.of_nat k) * x ^ Z.of_nat k)).
Qed.

(** C4, the claim as stated fails: the polynomial constructed from
    [1, 2147483647] is x + 2147483647; at x = 1 the sum of its terms is
    2147483648, which is not an [int], and [evaluate(1)] does not return it:
    the conversion of the running sum back to [int] is undefined. *)
Lemma evaluate_does_not_return_a_sum_outside_int :
  Polynomial_init [1; 2147483647] = Returns (poly_of [2147483647; 1])
  ∧ valid (poly_of [2147483647; 1]) = true
  ∧ partial_sum [2147483647; 1] 1 2 = 2147483648
  ∧ evaluate (poly_of [2147483647; 1]) 1 = Undefined
  ∧ evaluate (poly_of [2147483647; 1]) 1 ≠ Returns 2147483648.
Proof. by split_and!. Qed.

(** C4, amended: on a non-empty polynomial, [evaluate(x)] computes each term
    [coefficients[i] · x^i] on its own through the power function and adds
    the terms left to right from i = 0 to i = degree; it returns that sum
    whenever every running sum is an [int] and every power is a finite
    [double], and is undefined otherwise.  For the polynomial constructed
    from [3, 0, -4], [evaluate(2)] returns 8. *)
Theorem evaluate_sums_terms_left_to_right (p : Polynomial) (x : Z) :
  valid p = true →
  let cells := coefficients p in
  evaluate p x = (if sums_fit cells x
                  then Returns (partial_sum cells x (length cells))
                  else Undefined)
  ∧ (∀ k, partial_sum cells x (S k)
          = partial_sum cells x k + coeff_at cells (Z.of_nat k) * x ^ Z.of_nat k)
  ∧ partial_sum cells x 0 = 0
  ∧ (p ← Polynomial_init [3; 0; -4]; evaluate p 2) = Returns 8.
Proof.
  intros Hv cells. destruct (valid_inv p Hv) as (Hp & Hl & Hr).
  split_and!; [|apply partial_sum_S|done..].
  rewrite Hp. unfold evaluate. cbn [poly_of degree_ rd mbind outcome_bind].
  unfold upto.
  replace (Z.to_nat (Z.of_nat (length (coefficients p)) - 1 - 0 + 1))
    with (length (coefficients p)) by lia.
  by apply evaluate_loop.
Qed.

Lemma evaluate_sums_terms_left_to_right_witness :
  evaluate (poly_of [-4; 0; 3]) 2 = Returns (0 + -4 * 2 ^ 0 + 0 * 2 ^ 1 + 3 * 2 ^ 2).
Proof.
  exact (proj1 (evaluate_sums_terms_left_to_right (poly_of [-4; 0; 3]) 2 eq_refl)).
Defined.

(** ** C5 *)

Lemma derivative_poly_of cells :
  (1 < length cells)%nat →
  derivative (poly_of cells)
  = Returns (poly_of ((fun i => Int.mul (coeff_at cells i) i)
                        <$> zrange 1 (length cells - 1))).
Proof.
  intros Hl. unfold derivative. cbn [poly_of degree_ rd mbind outcome_bind].
  rewrite new_zeroed_pos by lia. cbn [unwinding mbind outcome_bind].
  unfold upto, with_terms, with_degree_. cbn [terms degree_ Polynomial_default].
  replace (Z.to_nat (Z.of_nat (length cells) - 1 - 1 + 1))
    with (length cells - 1)%nat by lia.
  replace (Z.to_nat (Z.of_nat (length cells) - 1))
    with (length cells - 1)%nat by lia.
  pose proof (fill_loop
    (fun i result =>
       c ← load_term (poly_of cells) i; store_term result (i - 1) (Int.mul c i))
    (fun i => Int.mul (coeff_at cells i) i) (-1)
    (Init (Z.of_nat (length cells) - 1 - 1)) (length cells - 1) 1 []
    (replicate (length cells - 1) 0) []) as H.
  simpl app in H. rewrite !app_nil_r in H. rewrite H.
  - f_equal. apply mk_poly_of. rewrite length_fmap, zrange_length. lia.
  - apply length_replicate.
  - done.
  - intros i r Hi. by rewrite load_term_poly_of by lia.
Qed.

(** For degree d ≥ 1 the result has degree d - 1 and holds
    [coefficients[i] · i] at index i - 1. *)
Lemma derivative_degree_ge_1 (p : Polynomial) (d : Z) :
  valid p = true → degree p = Returns d → 1 ≤ d →
  ∃ r, derivative p = Returns r
     ∧ degree r = Returns (d - 1)
     ∧ ∀ i, 1 ≤ i ≤ d →
            get r (i - 1) = Returns (Int.mul (coeff_at (coefficients p) i) i).
Proof.
  intros Hv Hd Hd1. destruct (valid_inv p Hv) as (Hp & Hl & Hr).
  rewrite Hp in Hd. injection Hd as <-.
  eexists. split_and!.
  - rewrite Hp at 1. apply derivative_poly_of. lia.
  - cbn. rewrite length_fmap, zrange_length. f_equal. lia.
  - intros i Hi. rewrite get_poly_of, get_val_map_zrange_from by lia.
    by replace (1 + (i - 1)) with i by lia.
Qed.

Lemma derivative_of_constant_undefined (p : Polynomial) :
  valid p = true → degree p = Returns 0 →
  derivative p = Undefined.
Proof.
  intros Hv Hd. destruct (valid_inv p Hv) as (Hp & Hl & Hr).
  rewrite Hp in Hd |- *. injection Hd as Hd.
  unfold derivative. cbn [poly_of degree_ rd mbind outcome_bind].
  replace (Z.of_nat (length (coefficients p)) - 1) with 0 by lia. done.
Qed.

(** C5, at the failing input: the polynomial constructed from [5] has
    degree 0; its [derivative()] sets the degree of the local [result] to -1
    and then evaluates [new T[0]{0}], one initialiser for no element, which
    throws [std::bad_array_new_length].  The pointer of [result] has not
    been assigned at that point, so the destructor that runs while the
    exception leaves the function applies [delete[]] to an indeterminate
    pointer: the call is undefined and no empty polynomial is produced.  The
    constructed [3, 0, -4] does give degree 1 with coefficients 0 and 6. *)
Theorem derivative_of_degree_0_is_undefined :
  Polynomial_init [5] = Returns (poly_of [5])
  ∧ degree (poly_of [5]) = Returns 0
  ∧ new_zeroed 0 = Throws_bad_array_new_length
  ∧ Polynomial_destroy (with_degree_ Polynomial_default (-1)) = Undefined
  ∧ derivative (poly_of [5]) = Undefined
  ∧ (p ← Polynomial_init [3; 0; -4]; derivative p) = Returns (poly_of [0; 6]).
Proof. by split_and!. Qed.

(** ** C6 *)

Lemma quot_in_range c b :
  Int.in_range c = true → 1 ≤ b → Int.in_range (c ÷ b) = true.
Proof.
  unfold Int.in_range, Int.min_int, Int.max_int. intros H Hb.
  apply andb_true_iff in H as [H1 H2]. apply Z.leb_le in H1, H2.
  assert (∀ a, 0 ≤ a → 0 ≤ a ÷ b ≤ a) as Hpos.
  { intros a Ha. rewrite Z.quot_div_nonneg by lia. split.
    - apply Z.div_pos; lia.
    - apply Z.div_le_upper_bound; [lia|nia]. }
  assert (c < 0 → c ≤ c ÷ b ≤ 0) as Hneg.
  { intros Hc. pose proof (Hpos (- c) ltac:(lia)) as H.
    rewrite Z.quot_opp_l in H by lia. lia. }
  destruct (Z.le_gt_cases 0 c) as [Hc|Hc];
    [specialize (Hpos c Hc)|specialize (Hneg Hc)].
  all: apply andb_true_iff; split; apply Z.leb_le; lia.
Qed.

Lemma int_div_is_quot c b :
  Int.in_range c = true → 1 ≤ b → Int.div c b = c ÷ b.
Proof. intros Hc Hb. unfold Int.div. apply wrap_in_range. by apply quot_in_range. Qed.

Lemma integral_poly_of cells :
  (0 < length cells)%nat →
  integral (poly_of cells)
  = Returns (poly_of (0 :: ((fun i => Int.div (coeff_at cells i) (i + 1))
                              <$> zrange 0 (length cells)))).
Proof.
  intros Hl. unfold integral. cbn [poly_of degree_ rd mbind outcome_bind].
  rewrite new_zeroed_pos by lia. cbn [unwinding mbind outcome_bind].
  unfold upto, with_terms, with_degree_. cbn [terms degree_ Polynomial_default].
  replace (Z.to_nat (Z.of_nat (length cells) - 1 - 0 + 1))
    with (length cells) by lia.
  replace (Z.to_nat (Z.of_nat (length cells) - 1 + 2))
    with (S (length cells)) by lia.
  pose proof (fill_loop
    (fun i result =>
       c ← load_term (poly_of cells) i;
       store_term result (i + 1) (Int.div c (i + 1)))
    (fun i => Int.div (coeff_at cells i) (i + 1)) 1
    (Init (Z.of_nat (length cells) - 1 + 1)) (length cells) 0 [0]
    (replicate (length cells) 0) []) as H.
  simpl app in H. rewrite !app_nil_r in H. cbn [replicate]. rewrite H.
  - f_equal. apply mk_poly_of. cbn [length]. rewrite length_fmap, zrange_length. lia.
  - apply length_replicate.
  - done.
  - intros i r Hi. by rewrite load_term_poly_of by lia.
Qed.

(** C6, the claim as stated fails on its example: the polynomial
    constructed from [1, 2] is x + 2 (the first listed value is the leading
    coefficient), and its integral reads 2 at exponent 1 and 0 at exponent 2,
    not 1 and 1. *)
Lemma integral_of_constructed_1_2_is_not_0_1_1 :
  Polynomial_init [1; 2] = Returns (poly_of [2; 1])
  ∧ integral (poly_of [2; 1]) = Returns (poly_of [0; 2; 0])
  ∧ get (poly_of [0; 2; 0]) 1 = Returns 2
  ∧ get (poly_of [0; 2; 0]) 2 = Returns 0
  ∧ get (poly_of [0; 2; 0]) 1 ≠ Returns 1
  ∧ get (poly_of [0; 2; 0]) 2 ≠ Returns 1.
Proof. by split_and!. Qed.

(** C6, amended: for every non-empty polynomial of degree d, [integral()]
    returns a polynomial of degree d + 1 whose coefficient at index i + 1 is
    [coefficients[i] / (i + 1)] for i in [0, d], with the truncating division
    of [int] and no rounding correction, and whose coefficient at index 0 is
    zero.  For the polynomial constructed from [1, 2], which is x + 2, the
    result has degree 2 with get(0) = 0, get(1) = 2 and get(2) = 0. *)
Theorem integral_divides_each_coefficient (p : Polynomial) :
  valid p = true →
  (∃ d r, degree p = Returns d ∧ integral p = Returns r
        ∧ degree r = Returns (d + 1)
        ∧ get r 0 = Returns 0
        ∧ ∀ i, 0 ≤ i ≤ d →
               get r (i + 1) = Returns (coeff_at (coefficients p) i ÷ (i + 1)))
  ∧ (∃ q r, Polynomial_init [1; 2] = Returns q ∧ integral q = Returns r
          ∧ degree r = Returns 2
          ∧ get r 0 = Returns 0 ∧ get r 1 = Returns 2 ∧ get r 2 = Returns 0).
Proof.
  intros Hv. destruct (valid_inv p Hv) as (Hp & Hl & Hr).
  split; [|by exists (poly_of [2; 1]), (poly_of [0; 2; 0])].
  eexists _, _. split_and!.
  - by rewrite Hp at 1.
  - rewrite Hp at 1. by apply integral_poly_of.
  - cbn. rewrite length_fmap, zrange_length. f_equal. lia.
  - by rewrite get_poly_of.
  - intros i Hi.
    rewrite get_poly_of, get_val_cons, get_val_map_zrange by lia.
    f_equal. apply int_div_is_quot; [by apply coeff_at_in_range|lia].
Qed.

Lemma integral_divides_each_coefficient_witness :
  ∃ r, integral (poly_of [7; -7; 5]) = Returns r
     ∧ degree r = Returns 3
     ∧ get r 0 = Returns 0
     ∧ get r 1 = Returns 7 ∧ get r 2 = Returns (-3) ∧ get r 3 = Returns 1.
Proof.
  destruct (proj1 (integral_divides_each_coefficient (poly_of [7; -7; 5]) eq_refl))
    as (d & r & Hd & Hi & Hdr & H0 & Hc).
  injection Hd as <-.
  exists r.
  exact (conj Hi (conj Hdr (conj H0
          (conj (Hc 0 ltac:(lia)) (conj (Hc 1 ltac:(lia)) (Hc 2 ltac:(lia))))))).
Defined.

(** ** C8 *)












(** ** C9 *)

(** C9, the claim as stated fails: the text is not [3x^2 - 4]; the zero
    coefficient of x is written out. *)
Lemma display_of_3_0_minus_4_is_not_short :
  (p ← Polynomial_init [3; 0; -4]; to_display_string p)
  ≠ Returns "3x^2 - 4"%string.
Proof. done. Qed.

(** C9, amended: the degree-2 polynomial constructed from the
    highest-to-lowest coefficient list [3, 0, -4] renders as exactly
    [3x^2 + 0x - 4]. *)
Theorem display_of_3_0_minus_4 :
  (p ← Polynomial_init [3; 0; -4]; degree p) = Returns 2
  ∧ (p ← Polynomial_init [3; 0; -4]; to_display_string p)
    = Returns "3x^2 + 0x - 4"%string.
Proof. by split. Qed.


(** * Further properties of the class *)

(** ** More basic facts *)

Lemma wrap_range z : Int.in_range (Int.wrap z) = true.
Proof.
  unfold Int.in_range, Int.wrap, Int.min_int, Int.max_int.
  pose proof (Z.mod_pos_bound (z + 2 ^ 31) (2 ^ 32) ltac:(lia)).
  apply andb_true_iff. split; apply Z.leb_le; lia.
Qed.

Lemma wrap_add_wrap x y : Int.wrap (Int.wrap x + Int.wrap y) = Int.wrap (x + y).
Proof.
  unfold Int.wrap. f_equal.
  replace ((x + 2 ^ 31) `mod` 2 ^ 32 - 2 ^ 31 + ((y + 2 ^ 31) `mod` 2 ^ 32 - 2 ^ 31)
           + 2 ^ 31)
    with ((x + 2 ^ 31) `mod` 2 ^ 32 + ((y + 2 ^ 31) `mod` 2 ^ 32 - 2 ^ 31)) by lia.
  rewrite Zplus_mod_idemp_l.
  replace (x + 2 ^ 31 + ((y + 2 ^ 31) `mod` 2 ^ 32 - 2 ^ 31))
    with ((y + 2 ^ 31) `mod` 2 ^ 32 + x) by lia.
  rewrite Zplus_mod_idemp_l. f_equal. lia.
Qed.

Lemma forallb_map_zrange (f : Z → Z) lo n :
  (∀ i, Int.in_range (f i) = true) →
  forallb Int.in_range (f <$> zrange lo n) = true.
Proof.
  intros H. apply forallb_forall. intros x Hx.
  apply in_map_iff in Hx as (i & <- & _). apply H.
Qed.

Lemma coeff_at_lookup cells k v :
  cells !! k = Some v → coeff_at cells (Z.of_nat k) = v.
Proof. intros H. unfold coeff_at. by rewrite Nat2Z.id, H. Qed.

Lemma get_val_inside cells i :
  0 ≤ i < Z.of_nat (length cells) → get_val cells i = coeff_at cells i.
Proof.
  intros Hi. unfold get_val.
  by destruct (Z.leb_spec 0 i); destruct (Z.ltb_spec i (Z.of_nat (length cells)));
    simpl; try lia.
Qed.

Lemma map_coeff_at_zrange cells : coeff_at cells <$> zrange 0 (length cells) = cells.
Proof. apply map_zrange_eq. intros k v. apply coeff_at_lookup. Qed.

Lemma poly_of_inj P Q : poly_of P = poly_of Q → P = Q.
Proof. by intros [= ->]. Qed.

(** ** X1: the initializer-list constructor *)

(** X1: the constructor from a list of N ≥ 1 coefficients returns a
    polynomial of degree N - 1 in which the i-th listed value (from 0) is the
    coefficient of exponent N - 1 - i; the result satisfies the class
    invariant.  On the empty list it throws [std::bad_array_new_length]. *)
Theorem constructor_stores_highest_degree_first (coeffs : list Z) :
  forallb Int.in_range coeffs = true →
  match coeffs with
  | [] => Polynomial_init coeffs = Throws_bad_array_new_length
  | _ =>
      ∃ p, Polynomial_init coeffs = Returns p
         ∧ valid p = true
         ∧ degree p = Returns (Z.of_nat (length coeffs) - 1)
         ∧ ∀ i c, coeffs !! i = Some c →
                  get p (Z.of_nat (length coeffs) - 1 - Z.of_nat i) = Returns c
  end.
Proof.
  intros Hr. destruct coeffs as [|c0 coeffs0] eqn:E; [done|]. rewrite <- E in *.
  assert (0 < length coeffs)%nat as Hl by (rewrite E; simpl; lia).
  exists (poly_of (rev coeffs)). split_and!.
  - by apply Polynomial_init_rev.
  - eapply Polynomial_init_valid; [done..|]. by apply Polynomial_init_rev.
  - cbn. rewrite length_rev. done.
  - intros i c Hc. pose proof (lookup_lt_Some _ _ _ Hc) as Hi.
    rewrite get_poly_of, get_val_inside by (rewrite length_rev; lia).
    f_equal. unfold coeff_at.
    replace (Z.to_nat (Z.of_nat (length coeffs) - 1 - Z.of_nat i))
      with (length coeffs - S i)%nat by lia.
    rewrite rev_alt. change (rev_append coeffs []) with (reverse coeffs).
    rewrite reverse_lookup by lia.
    replace (length coeffs - S (length coeffs - S i))%nat with i by lia.
    by rewrite Hc.
Qed.

Lemma constructor_stores_highest_degree_first_witness :
  ∃ p, Polynomial_init [3; 0; -4] = Returns p
     ∧ get p 2 = Returns 3 ∧ get p 1 = Returns 0 ∧ get p 0 = Returns (-4).
Proof.
  destruct (constructor_stores_highest_degree_first [3; 0; -4] eq_refl)
    as (p & Hp & _ & _ & Hg).
  exists p.
  exact (conj Hp (conj (Hg 0%nat 3 eq_refl)
                   (conj (Hg 1%nat 0 eq_refl) (Hg 2%nat (-4) eq_refl)))).
Defined.

(** ** X2: the non-const operator[] *)

Lemma store_term_poly_of cells i v :
  0 ≤ i < Z.of_nat (length cells) →
  store_term (poly_of cells) i v = Returns (poly_of (<[Z.to_nat i := v]> cells)).
Proof.
  intros Hi. unfold store_term, store. cbn [poly_of terms rd mbind outcome_bind].
  replace ((0 <=? i) && (i <? Z.of_nat (length cells))) with true
    by (symmetry; apply andb_true_iff; split; [apply Z.leb_le|apply Z.ltb_lt]; lia).
  cbn [mbind outcome_bind mret outcome_ret]. unfold with_terms, poly_of.
  cbn [degree_]. by rewrite length_insert.
Qed.

Lemma set_poly_of cells i v :
  set (poly_of cells) i v
  = if (0 <=? i) && (i <? Z.of_nat (length cells))
    then Returns (poly_of (<[Z.to_nat i := v]> cells)) else Undefined.
Proof.
  unfold set. cbn [poly_of degree_ rd mbind outcome_bind].
  assert (store_term (poly_of cells) i v
          = if (0 <=? i) && (i <? Z.of_nat (length cells))
            then Returns (poly_of (<[Z.to_nat i := v]> cells)) else Undefined) as H.
  { destruct (Z.leb_spec 0 i); destruct (Z.ltb_spec i (Z.of_nat (length cells)));
      cbn [andb]; try (by apply store_term_poly_of).
    all: unfold store_term, store; cbn [poly_of terms rd mbind outcome_bind].
    all: by destruct (Z.leb_spec 0 i);
           destruct (Z.ltb_spec i (Z.of_nat (length cells))); try lia. }
  fold (poly_of cells). rewrite H. by destruct ((_ <=? _) && (_ >=? _)).
Qed.

(** X2: on a non-empty polynomial, [p[exp] = v] with exp in [0, degree]
    returns; afterwards the const [operator[]] reads [v] at exp and the old
    coefficient at every other exponent, the degree is unchanged and, for an
    [int] value, the class invariant still holds.  With exp below 0 or above
    the degree the access is outside the buffer: undefined behaviour. *)
Theorem set_then_get (p : Polynomial) (exp v : Z) :
  valid p = true → Int.in_range v = true →
  ∃ d, degree p = Returns d
     ∧ (0 ≤ exp ≤ d →
        ∃ p', set p exp v = Returns p'
            ∧ valid p' = true
            ∧ degree p' = Returns d
            ∧ get p' exp = Returns v
            ∧ ∀ j, j ≠ exp → get p' j = get p j)
     ∧ (exp < 0 ∨ d < exp → set p exp v = Undefined).
Proof.
  intros Hv Hvr. destruct (valid_inv p Hv) as (Hp & Hl & Hr).
  set (cells := coefficients p) in *.
  exists (Z.of_nat (length cells) - 1). rewrite Hp. split_and!; [done|..].
  - intros Hexp. exists (poly_of (<[Z.to_nat exp := v]> cells)).
    rewrite set_poly_of.
    replace ((0 <=? exp) && (exp <? Z.of_nat (length cells))) with true
      by (symmetry; apply andb_true_iff; split; [apply Z.leb_le|apply Z.ltb_lt]; lia).
    split_and!; [done|..].
    + apply valid_poly_of; [rewrite length_insert; lia|].
      apply forallb_forall. intros x Hx. apply list_elem_of_In in Hx.
      apply list_elem_of_lookup in Hx as [k Hk].
      destruct (decide (k = Z.to_nat exp)) as [->|Hne].
      * rewrite list_lookup_insert_eq in Hk by lia. by injection Hk as <-.
      * rewrite list_lookup_insert_ne in Hk by done.
        rewrite forallb_forall in Hr. apply Hr, list_elem_of_In.
        by eapply list_elem_of_lookup_2.
    + cbn. by rewrite length_insert.
    + rewrite get_poly_of, get_val_inside by (rewrite length_insert; lia).
      unfold coeff_at. by rewrite list_lookup_insert_eq by lia.
    + intros j Hj. rewrite !get_poly_of. f_equal. unfold get_val, coeff_at.
      rewrite length_insert.
      destruct ((0 <=? j) && (j <? Z.of_nat (length cells))) eqn:Hin; [|done].
      apply andb_true_iff in Hin as [H0 _]. apply Z.leb_le in H0.
      by rewrite list_lookup_insert_ne by lia.
  - intros Hexp. rewrite set_poly_of.
    by destruct (Z.leb_spec 0 exp);
      destruct (Z.ltb_spec exp (Z.of_nat (length cells))); try lia.
Qed.

Lemma set_then_get_witness :
  ∃ p', set (poly_of [-4; 0; 3]) 1 7 = Returns p'
      ∧ get p' 1 = Returns 7 ∧ get p' 2 = Returns 3
      ∧ set (poly_of [-4; 0; 3]) 3 7 = Undefined.
Proof.
  destruct (set_then_get (poly_of [-4; 0; 3]) 1 7 eq_refl eq_refl)
    as (d & Hd & Hin & _).
  injection Hd as <-.
  destruct (Hin ltac:(lia)) as (p' & Hs & _ & _ & Hg & Ho).
  destruct (set_then_get (poly_of [-4; 0; 3]) 3 7 eq_refl eq_refl)
    as (d & Hd & _ & Hout).
  injection Hd as <-.
  exists p'.
  exact (conj Hs (conj Hg (conj (Ho 2 ltac:(lia)) (Hout ltac:(lia))))).
Defined.

(** ** X3: operator== and operator!= *)

Lemma equals_loop_forallb P Q idx :
  (∀ i, i ∈ idx → 0 ≤ i < Z.of_nat (length P) ∧ 0 ≤ i < Z.of_nat (length Q)) →
  equals_loop idx (poly_of P) (poly_of Q)
  = Returns (forallb (fun i => coeff_at P i =? coeff_at Q i) idx).
Proof.
  induction idx as [|i idx IH]; intros H; [done|].
  cbn [equals_loop forallb].
  destruct (H i ltac:(left)) as [HP HQ].
  rewrite !load_term_poly_of by done. cbn [mbind outcome_bind].
  destruct (coeff_at P i =? coeff_at Q i); cbn [negb andb]; [|done].
  apply IH. intros. apply H. by right.
Qed.

Lemma equals_poly_of P Q :
  ∃ b, equals (poly_of P) (poly_of Q) = Returns b ∧ (b = true ↔ P = Q).
Proof.
  unfold equals.
  change (degree_ (poly_of P)) with (Init (Z.of_nat (length P) - 1)).
  change (degree_ (poly_of Q)) with (Init (Z.of_nat (length Q) - 1)).
  cbn [rd mbind outcome_bind].
  destruct (Z.eqb_spec (Z.of_nat (length P) - 1) (Z.of_nat (length Q) - 1))
    as [Hl|Hl]; cbn [negb].
  - assert (length P = length Q) as Hlen by lia.
    rewrite equals_loop_forallb.
    2:{ intros i Hi. apply elem_of_zrange in Hi. lia. }
    eexists. split; [done|]. rewrite forallb_forall. split.
    + intros H. apply list_eq. intros k.
      destruct (P !! k) as [x|] eqn:Ex.
      * pose proof (lookup_lt_Some _ _ _ Ex) as Hk.
        destruct (lookup_lt_is_Some_2 Q k) as [y Ey]; [lia|].
        rewrite Ey. f_equal.
        specialize (H (Z.of_nat k)).
        rewrite (coeff_at_lookup _ _ _ Ex), (coeff_at_lookup _ _ _ Ey) in H.
        apply Z.eqb_eq, H, list_elem_of_In, elem_of_zrange. lia.
      * symmetry. apply lookup_ge_None. apply lookup_ge_None in Ex. lia.
    + intros -> i _. apply Z.eqb_refl.
  - exists false. split; [done|]. split; [done|]. intros ->. lia.
Qed.

(** X3: on non-empty polynomials [operator==] always returns, and it returns
    true exactly when the two objects have the same degree and the same
    coefficients; [operator!=] returns the opposite answer. *)
Theorem equals_decides_structural_equality (p q : Polynomial) :
  valid p = true → valid q = true →
  ∃ b, equals p q = Returns b
     ∧ not_equals p q = Returns (negb b)
     ∧ (b = true ↔ p = q)
     ∧ (b = true ↔ degree p = degree q ∧ coefficients p = coefficients q).
Proof.
  intros Hvp Hvq.
  destruct (valid_inv p Hvp) as (Hp & _ & _).
  destruct (valid_inv q Hvq) as (Hq & _ & _).
  set (P := coefficients p) in *. set (Q := coefficients q) in *.
  destruct (equals_poly_of P Q) as (b & Hb & Hiff).
  exists b. split_and!.
  - by rewrite Hp, Hq.
  - unfold not_equals. by rewrite Hp, Hq, Hb.
  - rewrite Hiff, Hp, Hq. split; [by intros ->|apply poly_of_inj].
  - rewrite Hiff, Hp, Hq. cbn. split; [by intros ->|by intros [_ ?]].
Qed.

Lemma equals_decides_structural_equality_witness :
  equals (poly_of [0; 1]) (poly_of [0; 1; 0]) = Returns false
  ∧ not_equals (poly_of [0; 1]) (poly_of [0; 1; 0]) = Returns true.
Proof.
  destruct (equals_decides_structural_equality (poly_of [0; 1]) (poly_of [0; 1; 0])
              eq_refl eq_refl) as (b & He & Hn & Hiff & _).
  destruct b.
  - by pose proof (proj1 Hiff eq_refl).
  - exact (conj He Hn).
Defined.

(** ** X4, X5: operator+ and operator- *)

Lemma add_poly_of P Q :
  (0 < length P)%nat → (0 < length Q)%nat →
  add (poly_of P) (poly_of Q)
  = Returns (poly_of ((fun i => Int.add (get_val P i) (get_val Q i))
                        <$> zrange 0 (Nat.max (length P) (length Q)))).
Proof.
  intros HP HQ.
  rewrite (add_pointwise _ _ (Z.of_nat (length P) - 1) (Z.of_nat (length Q) - 1)
             (get_val P) (get_val Q));
    [|done|done|apply get_poly_of|apply get_poly_of|lia].
  replace (Z.to_nat (Z.max (Z.of_nat (length P) - 1) (Z.of_nat (length Q) - 1) + 1))
    with (Nat.max (length P) (length Q)) by lia.
  f_equal. apply mk_poly_of. rewrite length_fmap, zrange_length. lia.
Qed.

Lemma subtract_poly_of P Q :
  (0 < length P)%nat → (0 < length Q)%nat →
  subtract (poly_of P) (poly_of Q)
  = Returns (poly_of ((fun i => Int.sub (get_val P i) (get_val Q i))
                        <$> zrange 0 (Nat.max (length P) (length Q)))).
Proof.
  intros HP HQ.
  rewrite (subtract_pointwise _ _ (Z.of_nat (length P) - 1) (Z.of_nat (length Q) - 1)
             (get_val P) (get_val Q));
    [|done|done|apply get_poly_of|apply get_poly_of|lia].
  replace (Z.to_nat (Z.max (Z.of_nat (length P) - 1) (Z.of_nat (length Q) - 1) + 1))
    with (Nat.max (length P) (length Q)) by lia.
  f_equal. apply mk_poly_of. rewrite length_fmap, zrange_length. lia.
Qed.

Lemma get_val_pointwise (op : Z → Z → Z) P Q i :
  op 0 0 = 0 →
  get_val ((fun i => op (get_val P i) (get_val Q i))
             <$> zrange 0 (Nat.max (length P) (length Q))) i
  = op (get_val P i) (get_val Q i).
Proof.
  intros Hop.
  destruct (decide (0 ≤ i < Z.of_nat (Nat.max (length P) (length Q)))) as [Hi|Hi].
  - by rewrite get_val_map_zrange.
  - rewrite !get_val_outside; [done|lia..|].
    rewrite length_fmap, zrange_length. lia.
Qed.

(** X4: on non-empty polynomials [operator+] and [operator-] always return a
    polynomial that satisfies the class invariant, whose degree is the larger
    of the two degrees and whose coefficient at every exponent is the [int]
    sum (difference) of what the const [operator[]] reads from the operands;
    [operator+] is commutative. *)
Theorem add_subtract_pointwise (p q : Polynomial) :
  valid p = true → valid q = true →
  ∃ s t dp dq,
    degree p = Returns dp ∧ degree q = Returns dq
    ∧ add p q = Returns s ∧ subtract p q = Returns t
    ∧ add q p = Returns s
    ∧ valid s = true ∧ valid t = true
    ∧ degree s = Returns (Z.max dp dq) ∧ degree t = Returns (Z.max dp dq)
    ∧ ∀ i a b, get p i = Returns a → get q i = Returns b →
               get s i = Returns (Int.add a b) ∧ get t i = Returns (Int.sub a b).
Proof.
  intros Hvp Hvq.
  destruct (valid_inv p Hvp) as (Hp & Hlp & _).
  destruct (valid_inv q Hvq) as (Hq & Hlq & _).
  set (P := coefficients p) in *. set (Q := coefficients q) in *.
  rewrite Hp, Hq.
  eexists _, _, _, _. split_and!; [done|done|by apply add_poly_of
    |by apply subtract_poly_of|..].
  - rewrite add_poly_of by done. rewrite (Nat.max_comm (length Q)).
    do 2 f_equal. apply map_zrange_ext. intros i _. unfold Int.add.
    by rewrite Z.add_comm.
  - apply valid_poly_of; [rewrite length_fmap, zrange_length; lia|].
    apply forallb_map_zrange. intros. apply wrap_range.
  - apply valid_poly_of; [rewrite length_fmap, zrange_length; lia|].
    apply forallb_map_zrange. intros. apply wrap_range.
  - cbn. rewrite length_fmap, zrange_length. f_equal. lia.
  - cbn. rewrite length_fmap, zrange_length. f_equal. lia.
  - intros i a b. rewrite !get_poly_of. intros [= <-] [= <-].
    by rewrite !get_val_pointwise.
Qed.

Lemma add_subtract_pointwise_witness :
  add (poly_of [-4; 0; 3]) (poly_of [2; 1]) = Returns (poly_of [-2; 1; 3])
  ∧ add (poly_of [2; 1]) (poly_of [-4; 0; 3]) = Returns (poly_of [-2; 1; 3])
  ∧ subtract (poly_of [-4; 0; 3]) (poly_of [2; 1]) = Returns (poly_of [-6; -1; 3]).
Proof.
  destruct (add_subtract_pointwise (poly_of [-4; 0; 3]) (poly_of [2; 1])
              eq_refl eq_refl)
    as (s & t & dp & dq & _ & _ & Hs & Ht & Hs' & _).
  rewrite Hs'. injection Hs as <-. injection Ht as <-. done.
Defined.

(** X5: subtracting a non-empty polynomial from itself returns the
    polynomial of the same degree whose coefficients are all zero; the
    degree is not lowered. *)
Theorem subtract_self_is_zero_of_same_degree (p : Polynomial) :
  valid p = true →
  ∃ d, degree p = Returns d
     ∧ subtract p p = Returns (poly_of (replicate (Z.to_nat (d + 1)) 0)).
Proof.
  intros Hv. destruct (valid_inv p Hv) as (Hp & Hl & _).
  set (P := coefficients p) in *. rewrite Hp.
  eexists. split; [done|]. rewrite subtract_poly_of by done.
  rewrite Nat.max_id.
  replace (Z.to_nat (Z.of_nat (length P) - 1 + 1)) with (length P) by lia.
  do 2 f_equal. apply list_eq. intros k. rewrite list_lookup_fmap.
  destruct (decide (k < length P)%nat) as [Hk|Hk].
  - rewrite zrange_lookup, lookup_replicate_2 by done. simpl. f_equal.
    unfold Int.sub. by rewrite Z.sub_diag.
  - rewrite !lookup_ge_None_2;
      [done|rewrite length_replicate; lia|rewrite zrange_length; lia].
Qed.

Lemma subtract_self_is_zero_of_same_degree_witness :
  subtract (poly_of [-4; 0; 3]) (poly_of [-4; 0; 3]) = Returns (poly_of [0; 0; 0]).
Proof.
  destruct (subtract_self_is_zero_of_same_degree (poly_of [-4; 0; 3]) eq_refl)
    as (d & Hd & Hs).
  injection Hd as <-. exact Hs.
Defined.

(** ** X6, X7: copying, moving and assigning *)

Lemma copy_loop src :
  ∀ n lo pre junk,
    length junk = n → Z.of_nat (length pre) = lo →
    lo + Z.of_nat n ≤ Z.of_nat (length src) →
    for_each (zrange lo n) (fun i dst => v ← load (buf src) i; store dst i v)
      (buf (pre ++ junk))
    = Returns (buf (pre ++ (coeff_at src <$> zrange lo n))).
Proof.
  induction n as [|n IH]; intros lo pre junk Hl Hp Hs.
  - by destruct junk.
  - destruct junk as [|j junk]; [done|]. simpl in Hl.
    cbn [zrange for_each fmap list_fmap]. rewrite load_buf by lia.
    cbn [mbind outcome_bind]. rewrite <- Hp, store_middle. cbn [mbind outcome_bind].
    specialize (IH (lo + 1) (pre ++ [coeff_at src lo]) junk).
    rewrite <- !app_assoc in IH. cbn [app] in IH. rewrite Hp. apply IH.
    + lia.
    + rewrite length_app. simpl. lia.
    + lia.
Qed.

Lemma std_copy_buf src junk :
  length junk = length src →
  std_copy (buf src) (Z.of_nat (length src)) (buf junk) = Returns (buf src).
Proof.
  intros Hl. unfold std_copy.
  destruct (Z.ltb_spec (Z.of_nat (length src)) 0) as [?|_]; [lia|].
  unfold upto.
  replace (Z.to_nat (Z.of_nat (length src) - 1 - 0 + 1)) with (length src) by lia.
  pose proof (copy_loop src (length src) 0 [] junk Hl eq_refl ltac:(lia)) as H.
  cbn [app] in H. by rewrite H, map_coeff_at_zrange.
Qed.

Lemma new_uninit_nonneg junk n :
  0 ≤ n → new_uninit junk n = Returns (buf (junk <$> zrange 0 (Z.to_nat n))).
Proof. intros H. unfold new_uninit. by destruct (Z.ltb_spec n 0); [lia|]. Qed.

Lemma Polynomial_copy_poly_of junk cells :
  Polynomial_copy junk (poly_of cells) = Returns (poly_of cells).
Proof.
  unfold Polynomial_copy. cbn [poly_of degree_ terms rd mbind outcome_bind].
  rewrite new_uninit_nonneg by lia. cbn [unwinding mbind outcome_bind].
  replace (Z.of_nat (length cells) - 1 + 1) with (Z.of_nat (length cells)) by lia.
  rewrite std_copy_buf by (rewrite length_fmap, zrange_length; lia).
  done.
Qed.

Lemma copy_assign_poly_of junk this cells t :
  terms this = Init t →
  copy_assign junk false this (poly_of cells) = Returns (poly_of cells).
Proof.
  intros Ht. unfold copy_assign. rewrite Ht.
  cbn [negb delete_array poly_of degree_ terms rd mbind outcome_bind].
  rewrite new_uninit_nonneg by lia. cbn [unwinding mbind outcome_bind].
  replace (Z.of_nat (length cells) - 1 + 1) with (Z.of_nat (length cells)) by lia.
  rewrite std_copy_buf by (rewrite length_fmap, zrange_length; lia).
  done.
Qed.

(** X6: the copy constructor applied to a non-empty polynomial returns an
    object with the same degree and the same coefficients, whatever the fresh
    storage held.  Applied to the empty object a move leaves behind, it
    returns an object of degree -1 over an array of no elements, which reads
    0 at every exponent. *)
Theorem copy_constructor_copies (junk : Z → Z) (p : Polynomial) :
  valid p = true →
  Polynomial_copy junk p = Returns p
  ∧ ∃ e, Polynomial_copy junk moved_from = Returns e
       ∧ degree e = Returns (-1) ∧ terms e = Init (buf [])
       ∧ ∀ i, get e i = Returns 0.
Proof.
  intros Hv. destruct (valid_inv p Hv) as (Hp & _ & _). split.
  - rewrite Hp. apply Polynomial_copy_poly_of.
  - exists (poly_of []). split_and!; try done.
    intros i. rewrite get_poly_of, get_val_outside; [done|simpl; lia].
Qed.

Lemma copy_constructor_copies_witness :
  Polynomial_copy (fun i => 7 * i + 1) (poly_of [-4; 0; 3])
  = Returns (poly_of [-4; 0; 3]).
Proof.
  exact (proj1 (copy_constructor_copies (fun i => 7 * i + 1) (poly_of [-4; 0; 3])
                  eq_refl)).
Defined.

(** X7: assignment to an object whose pointer member holds a value (a
    non-empty polynomial, or a moved-from one) makes it a copy of a non-empty
    right-hand side (copy assignment), or gives it the members of the
    right-hand side and leaves that one in the empty state (move assignment);
    self-assignment changes nothing.  Assignment to a default-initialised
    object is undefined: [delete[]] is applied to a pointer that was never
    set. *)
Theorem assignment_replaces_the_target (junk : Z → Z) (this other : Polynomial)
    (t : ptr) :
  terms this = Init t → valid other = true →
  copy_assign junk false this other = Returns other
  ∧ move_assign false this other = Returns (other, moved_from)
  ∧ copy_assign junk true this this = Returns this
  ∧ move_assign true this this = Returns (this, this)
  ∧ copy_assign junk false Polynomial_default other = Undefined
  ∧ move_assign false Polynomial_default other = Undefined.
Proof.
  intros Ht Hv. destruct (valid_inv other Hv) as (Ho & _ & _).
  split_and!; try done.
  - rewrite Ho. by eapply copy_assign_poly_of.
  - unfold move_assign. rewrite Ht. by destruct other.
Qed.

Lemma assignment_replaces_the_target_witness :
  copy_assign (fun _ => 5) false moved_from (poly_of [2; 1]) = Returns (poly_of [2; 1])
  ∧ move_assign false (poly_of [9]) (poly_of [2; 1])
    = Returns (poly_of [2; 1], moved_from).
Proof.
  pose proof (assignment_replaces_the_target (fun _ => 5) moved_from (poly_of [2; 1])
                nullptr eq_refl eq_refl) as (H1 & _).
  pose proof (assignment_replaces_the_target (fun _ => 5) (poly_of [9])
                (poly_of [2; 1]) (buf [9]) eq_refl eq_refl) as (_ & H2 & _).
  exact (conj H1 H2).
Defined.

(** ** X8: the empty state *)

(** X8: the move constructor gives the new object the members of its source
    and leaves the source empty.  On that empty object the degree is -1, the
    const [operator[]] reads 0 everywhere, [evaluate] returns 0, nothing is
    printed, [integral()] returns the constant polynomial 0, and it compares
    equal to itself.  [derivative()], and [operator+], [operator-] and
    [operator*] with both operands empty, request an array of no or of -1
    elements with one initialiser; the new-expression throws
    [std::bad_array_new_length] while the pointer of the local [result] is
    still unassigned, so the destructor of [result] makes the call
    undefined. *)
Theorem operations_on_the_moved_from_object (p : Polynomial) :
  let '(fresh, e) := Polynomial_move p in
  fresh = p
  ∧ degree e = Returns (-1)
  ∧ (∀ i, get e i = Returns 0)
  ∧ (∀ x, evaluate e x = Returns 0)
  ∧ (∀ os, print os e = Returns os)
  ∧ integral e = Returns (poly_of [0])
  ∧ equals e e = Returns true
  ∧ new_zeroed 0 = Throws_bad_array_new_length
  ∧ new_zeroed (-1) = Throws_bad_array_new_length
  ∧ derivative e = Undefined
  ∧ add e e = Undefined
  ∧ subtract e e = Undefined
  ∧ multiply e e = Undefined.
Proof.
  cbn [Polynomial_move]. split_and!; try done.
  - by destruct p.
  - apply get_moved_from.
Qed.

(** ** X9: scalar multiplication *)

Lemma multiply_scalar_poly_of junk cells scalar :
  multiply_scalar junk (poly_of cells) scalar
  = Returns (poly_of ((fun i => Int.mul (coeff_at cells i) scalar)
                        <$> zrange 0 (length cells))).
Proof.
  unfold multiply_scalar. cbn [poly_of degree_ rd mbind outcome_bind].
  rewrite new_uninit_nonneg by lia. cbn [unwinding mbind outcome_bind].
  unfold upto, with_terms, with_degree_. cbn [terms degree_ Polynomial_default].
  replace (Z.to_nat (Z.of_nat (length cells) - 1 - 0 + 1)) with (length cells) by lia.
  replace (Z.to_nat (Z.of_nat (length cells) - 1 + 1)) with (length cells) by lia.
  pose proof (fill_loop
    (fun i result =>
       c ← load_term (poly_of cells) i; store_term result i (Int.mul c scalar))
    (fun i => Int.mul (coeff_at cells i) scalar) 0
    (Init (Z.of_nat (length cells) - 1)) (length cells) 0 []
    (junk <$> zrange 0 (length cells)) []) as H.
  cbn [app] in H. rewrite !app_nil_r in H. rewrite H.
  - f_equal. apply mk_poly_of. rewrite length_fmap, zrange_length. lia.
  - by rewrite length_fmap, zrange_length.
  - done.
  - intros i r Hi. by rewrite load_term_poly_of, Z.add_0_r by lia.
Qed.

(** X9: multiplying a non-empty polynomial by a scalar returns a polynomial
    of the same degree that satisfies the class invariant and whose
    coefficient at every index is the [int] product of the old coefficient
    and the scalar, whatever the fresh storage held; the scalar 1 gives back
    an equal polynomial.  On the empty (moved-from) object it returns an
    object of degree -1. *)
Theorem scalar_multiple (junk : Z → Z) (p : Polynomial) (scalar : Z) :
  valid p = true →
  ∃ r d, degree p = Returns d
       ∧ multiply_scalar junk p scalar = Returns r
       ∧ valid r = true
       ∧ degree r = Returns d
       ∧ (∀ i, 0 ≤ i ≤ d →
               get r i = Returns (Int.mul (coeff_at (coefficients p) i) scalar))
       ∧ multiply_scalar junk p 1 = Returns p
       ∧ multiply_scalar junk moved_from scalar = Returns (poly_of []).
Proof.
  intros Hv. destruct (valid_inv p Hv) as (Hp & Hl & Hr).
  set (P := coefficients p) in *. rewrite Hp.
  eexists _, _. split_and!; [done|apply multiply_scalar_poly_of|..].
  - apply valid_poly_of; [by rewrite length_fmap, zrange_length|].
    apply forallb_map_zrange. intros. apply wrap_range.
  - cbn. by rewrite length_fmap, zrange_length.
  - intros i Hi. by rewrite get_poly_of, get_val_map_zrange by lia.
  - rewrite multiply_scalar_poly_of. do 2 f_equal.
    apply map_zrange_eq. intros k v Hk.
    rewrite (coeff_at_lookup _ _ _ Hk). unfold Int.mul. rewrite Z.mul_1_r.
    apply wrap_in_range. rewrite forallb_forall in Hr.
    apply Hr, list_elem_of_In. by eapply list_elem_of_lookup_2.
  - done.
Qed.

Lemma scalar_multiple_witness :
  ∃ r, multiply_scalar (fun _ => 42) (poly_of [-4; 0; 3]) 5 = Returns r
     ∧ get r 0 = Returns (-20) ∧ get r 2 = Returns 15.
Proof.
  destruct (scalar_multiple (fun _ => 42) (poly_of [-4; 0; 3]) 5 eq_refl)
    as (r & d & Hd & Hr & _ & _ & Hg & _).
  injection Hd as <-.
  exists r. exact (conj Hr (conj (Hg 0 ltac:(lia)) (Hg 2 ltac:(lia)))).
Defined.

(** ** X10: evaluation at 0 *)

Lemma partial_sum_at_0 cells k :
  partial_sum cells 0 (S k) = coeff_at cells 0.
Proof.
  induction k as [|k IH]; [unfold partial_sum; simpl; unfold term; simpl; lia|].
  rewrite partial_sum_S, IH. unfold term.
  rewrite Z.pow_0_l by lia. lia.
Qed.

Lemma pow_finite_0 i : 0 ≤ i → pow_finite 0 i = true.
Proof.
  intros Hi. unfold pow_finite.
  destruct (decide (i = 0)) as [->|Hne]; [done|].
  rewrite Z.pow_0_l by lia. done.
Qed.

(** X10: evaluating a non-empty polynomial at 0 always returns, and what it
    returns is the constant term. *)
Theorem evaluate_at_0_is_constant_term (p : Polynomial) :
  valid p = true → evaluate p 0 = get p 0.
Proof.
  intros Hv. destruct (valid_inv p Hv) as (Hp & Hl & Hr).
  set (P := coefficients p) in *. rewrite Hp.
  rewrite get_poly_of, get_val_inside by lia.
  unfold evaluate. cbn [poly_of degree_ rd mbind outcome_bind]. unfold upto.
  replace (Z.to_nat (Z.of_nat (length P) - 1 - 0 + 1)) with (length P) by lia.
  fold (poly_of P). rewrite evaluate_loop by done.
  assert (forallb (step_fits P 0) (zrange 0 (length P)) = true) as ->.
  { apply forallb_forall. intros i Hi.
    apply list_elem_of_In, elem_of_zrange in Hi. unfold step_fits.
    rewrite pow_finite_0 by lia. cbn [andb].
    rewrite Nat.add_1_r, partial_sum_at_0. by apply coeff_at_in_range. }
  destruct (length P) as [|n] eqn:E; [lia|]. by rewrite partial_sum_at_0.
Qed.

Lemma evaluate_at_0_is_constant_term_witness :
  evaluate (poly_of [-4; 0; 3]) 0 = Returns (-4).
Proof. exact (evaluate_at_0_is_constant_term (poly_of [-4; 0; 3]) eq_refl). Defined.

(** ** X11: differentiating an integral *)

(** X11: for a non-empty polynomial of degree d, [integral()] followed by
    [derivative()] returns a polynomial of degree d whose coefficient at
    index i is [coefficients[i]] rounded towards zero to a multiple of i + 1;
    so the polynomial comes back unchanged exactly when every coefficient is
    divisible by its index plus one. *)
Theorem derivative_of_integral (p : Polynomial) :
  valid p = true →
  ∃ r s d, degree p = Returns d
         ∧ integral p = Returns r ∧ derivative r = Returns s
         ∧ valid r = true ∧ valid s = true
         ∧ degree s = Returns d
         ∧ (∀ i, 0 ≤ i ≤ d →
                 get s i = Returns (coeff_at (coefficients p) i
                                    - Z.rem (coeff_at (coefficients p) i) (i + 1)))
         ∧ (s = p ↔ ∀ i, 0 ≤ i ≤ d → Z.rem (coeff_at (coefficients p) i) (i + 1) = 0).
Proof.
  intros Hv. destruct (valid_inv p Hv) as (Hp & Hl & Hr).
  set (P := coefficients p) in *.
  set (R := 0 :: ((fun i => Int.div (coeff_at P i) (i + 1)) <$> zrange 0 (length P))).
  set (S := (fun i => Int.mul (coeff_at R i) i) <$> zrange 1 (length R - 1)).
  assert (length R = Datatypes.S (length P)) as HlR
    by (unfold R; cbn [length]; by rewrite length_fmap, zrange_length).
  assert (length S = length P) as HlS
    by (unfold S; rewrite length_fmap, zrange_length; lia).
  assert (∀ i, 0 ≤ i < Z.of_nat (length P) →
               coeff_at S i = coeff_at P i - Z.rem (coeff_at P i) (i + 1)) as HS.
  { intros i Hi. rewrite <- get_val_inside by lia. unfold S.
    rewrite get_val_map_zrange_from by lia.
    rewrite <- (get_val_inside R) by lia. unfold R.
    rewrite Z.add_comm, get_val_cons, get_val_map_zrange by lia.
    rewrite int_div_is_quot by (by apply coeff_at_in_range || lia).
    pose proof (Z.quot_rem' (coeff_at P i) (i + 1)) as Hqr.
    unfold Int.mul.
    replace (coeff_at P i ÷ (i + 1) * (i + 1))
      with (coeff_at P i - Z.rem (coeff_at P i) (i + 1)) by lia.
    apply wrap_in_range.
    pose proof (coeff_at_in_range P i Hr) as Hc.
    unfold Int.in_range, Int.min_int, Int.max_int in *.
    apply andb_true_iff in Hc as [H1 H2]. apply Z.leb_le in H1, H2.
    apply andb_true_iff.
    destruct (Z.le_gt_cases 0 (coeff_at P i)).
    - pose proof (Z.rem_bound_pos (coeff_at P i) (i + 1) ltac:(lia) ltac:(lia)).
      pose proof (Z.rem_le (coeff_at P i) (i + 1) ltac:(lia) ltac:(lia)).
      split; apply Z.leb_le; lia.
    - pose proof (Z.rem_bound_pos (- coeff_at P i) (i + 1) ltac:(lia) ltac:(lia)).
      pose proof (Z.rem_opp_l' (coeff_at P i) (i + 1)) as Ho.
      pose proof (Z.rem_le (- coeff_at P i) (i + 1) ltac:(lia) ltac:(lia)).
      split; apply Z.leb_le; lia. }
  exists (poly_of R), (poly_of S), (Z.of_nat (length P) - 1).
  rewrite Hp. split_and!.
  - done.
  - by apply integral_poly_of.
  - apply derivative_poly_of. lia.
  - apply valid_poly_of; [lia|]. unfold R. cbn [forallb].
    rewrite forallb_map_zrange; [done|]. intros. apply wrap_range.
  - apply valid_poly_of; [lia|]. apply forallb_map_zrange. intros. apply wrap_range.
  - unfold degree. cbn [poly_of degree_ rd]. by rewrite HlS.
  - intros i Hi. rewrite get_poly_of, get_val_inside by lia. f_equal. apply HS. lia.
  - split.
    + intros Heq%poly_of_inj i Hi. specialize (HS i ltac:(lia)).
      rewrite Heq in HS. lia.
    + intros Hz. f_equal. apply list_eq. intros k.
      destruct (P !! k) as [x|] eqn:Ex.
      * pose proof (lookup_lt_Some _ _ _ Ex) as Hk.
        destruct (lookup_lt_is_Some_2 S k) as [y Ey]; [lia|]. rewrite Ey. f_equal.
        specialize (HS (Z.of_nat k) ltac:(lia)).
        rewrite Hz in HS by lia.
        rewrite (coeff_at_lookup _ _ _ Ex), (coeff_at_lookup _ _ _ Ey) in HS. lia.
      * apply lookup_ge_None. apply lookup_ge_None in Ex. lia.
Qed.

Lemma derivative_of_integral_witness :
  ∃ r s, integral (poly_of [7; -7; 6]) = Returns r ∧ derivative r = Returns s
       ∧ get s 0 = Returns 7 ∧ get s 1 = Returns (-6) ∧ get s 2 = Returns 6.
Proof.
  destruct (derivative_of_integral (poly_of [7; -7; 6]) eq_refl)
    as (r & s & d & Hd & Hr & Hs & _ & _ & _ & Hg & _).
  injection Hd as <-.
  exists r, s.
  exact (conj Hr (conj Hs (conj (Hg 0 ltac:(lia))
          (conj (Hg 1 ltac:(lia)) (Hg 2 ltac:(lia)))))).
Defined.

(** ** X12: polynomial multiplication *)

Lemma zsum_S f m : zsum f (S m) = zsum f m + f (Z.of_nat m).
Proof.
  unfold zsum. rewrite zrange_snoc, fmap_app, foldl_app. simpl.
  by rewrite Z.add_0_l.
Qed.

Lemma zsum_ext f g m :
  (∀ i, 0 ≤ i < Z.of_nat m → f i = g i) → zsum f m = zsum g m.
Proof.
  induction m as [|m IH]; intros H; [done|].
  rewrite !zsum_S, IH, H; [done|lia|]. intros. apply H. lia.
Qed.

Lemma zsum_add f g m : zsum (fun i => f i + g i) m = zsum f m + zsum g m.
Proof. induction m as [|m IH]; [done|]. rewrite !zsum_S, IH. lia. Qed.

Lemma zsum_swap (F : Z → Z → Z) m n :
  zsum (fun i => zsum (fun j => F i j) n) m
  = zsum (fun j => zsum (fun i => F i j) m) n.
Proof.
  induction m as [|m IH].
  - induction n as [|n IHn]; [done|]. rewrite zsum_S, <- IHn. done.
  - rewrite zsum_S, IH, <- zsum_add. apply zsum_ext. intros j _.
    by rewrite zsum_S.
Qed.

Lemma zsum_indicator (c : Z → Z) i k n :
  zsum (fun j => if i + j =? k then c j else 0) n
  = if (0 <=? k - i) && (k - i <? Z.of_nat n) then c (k - i) else 0.
Proof.
  induction n as [|n IH].
  - destruct (Z.leb_spec 0 (k - i)); destruct (Z.ltb_spec (k - i) (Z.of_nat 0));
      simpl; try done; lia.
  - rewrite zsum_S, IH.
    destruct (Z.eqb_spec (i + Z.of_nat n) k) as [He|He];
      destruct (Z.leb_spec 0 (k - i));
      destruct (Z.ltb_spec (k - i) (Z.of_nat n));
      destruct (Z.ltb_spec (k - i) (Z.of_nat (S n)));
      cbn [andb]; try lia.
    replace (k - i) with (Z.of_nat n) by lia. lia.
Qed.

Lemma convolution_comm P Q k : convolution P Q k = convolution Q P k.
Proof.
  unfold convolution, convolution_upto.
  rewrite (zsum_ext _ (fun i => zsum (fun j => if i + j =? k
                                           then coeff_at P i * coeff_at Q j
                                           else 0) (length Q))).
  2:{ intros i _. rewrite zsum_indicator. unfold get_val.
      destruct ((0 <=? k - i) && (k - i <? Z.of_nat (length Q))); lia. }
  rewrite zsum_swap. apply zsum_ext. intros j _.
  rewrite (zsum_ext _ (fun i => if j + i =? k then coeff_at Q j * coeff_at P i else 0)).
  2:{ intros i _. rewrite (Z.add_comm i j), (Z.mul_comm (coeff_at P i)). done. }
  rewrite zsum_indicator. unfold get_val.
  destruct ((0 <=? k - j) && (k - j <? Z.of_nat (length P))); lia.
Qed.

Lemma replicate_zeros_as_map n :
  replicate n 0 = (fun _ : Z => Int.wrap 0) <$> zrange 0 n.
Proof.
  apply list_eq. intros k. rewrite list_lookup_fmap.
  destruct (decide (k < n)%nat) as [Hk|Hk].
  - by rewrite lookup_replicate_2, zrange_lookup by done.
  - rewrite !lookup_ge_None_2;
      [done|rewrite zrange_length; lia|rewrite length_replicate; lia].
Qed.

Lemma load_map (g : Z → Z) n m :
  0 ≤ m < Z.of_nat n → load (buf (g <$> zrange 0 n)) m = Returns (g m).
Proof.
  intros Hm. rewrite load_buf by (rewrite length_fmap, zrange_length; lia).
  f_equal. rewrite <- get_val_inside by (rewrite length_fmap, zrange_length; lia).
  by apply get_val_map_zrange.
Qed.

Lemma store_map (g : Z → Z) n m v :
  0 ≤ m < Z.of_nat n →
  store (buf (g <$> zrange 0 n)) m v
  = Returns (buf ((fun k => if k =? m then v else g k) <$> zrange 0 n)).
Proof.
  intros Hm. unfold store. rewrite length_fmap, zrange_length.
  replace ((0 <=? m) && (m <? Z.of_nat n)) with true
    by (symmetry; apply andb_true_iff; split; [apply Z.leb_le|apply Z.ltb_lt]; lia).
  do 2 f_equal. apply list_eq. intros k.
  destruct (decide (k < n)%nat) as [Hk|Hk].
  - destruct (decide (k = Z.to_nat m)) as [->|Hne].
    + rewrite list_lookup_insert_eq by (rewrite length_fmap, zrange_length; lia).
      rewrite list_lookup_fmap, zrange_lookup by lia. simpl.
      by destruct (Z.eqb_spec (0 + Z.of_nat (Z.to_nat m)) m); [|lia].
    + rewrite list_lookup_insert_ne by done.
      rewrite !list_lookup_fmap, zrange_lookup by lia. simpl.
      by destruct (Z.eqb_spec (0 + Z.of_nat k) m); [lia|].
  - rewrite !lookup_ge_None_2; [done|..];
      rewrite ?length_insert, length_fmap, zrange_length; lia.
Qed.

Lemma load_term_mk t dg i :
  load_term {| terms := Init t; degree_ := dg |} i = load t i.
Proof. done. Qed.

Lemma store_term_mk t dg i v :
  store_term {| terms := Init t; degree_ := dg |} i v
  = (t' ← store t i v; mret {| terms := Init t'; degree_ := dg |}).
Proof. done. Qed.

(** The inner loop of [operator*] for a fixed [i]: every cell [k] with
    0 ≤ k - i < m gains [p_i · q_(k-i)]. *)
Lemma multiply_inner_loop P Q dg n i :
  0 ≤ i < Z.of_nat (length P) →
  ∀ m (h : Z → Z),
    (m ≤ length Q)%nat → i + Z.of_nat m ≤ Z.of_nat n →
    for_each (zrange 0 m)
      (fun j result =>
         cur ← load_term result (i + j);
         a ← load_term (poly_of P) i;
         b ← load_term (poly_of Q) j;
         store_term result (i + j) (Int.add cur (Int.mul a b)))
      {| terms := Init (buf ((fun k => Int.wrap (h k)) <$> zrange 0 n));
         degree_ := dg |}
    = Returns
        {| terms := Init (buf ((fun k =>
                     Int.wrap (h k + (if (0 <=? k - i) && (k - i <? Z.of_nat m)
                                      then coeff_at P i * coeff_at Q (k - i)
                                      else 0))) <$> zrange 0 n));
           degree_ := dg |}.
Proof.
  intros Hi. induction m as [|m IH]; intros h Hm Hn.
  - cbn [zrange for_each]. do 4 f_equal. apply map_zrange_ext. intros k _.
    destruct (Z.leb_spec 0 (k - i)); destruct (Z.ltb_spec (k - i) (Z.of_nat 0));
      cbn [andb]; f_equal; lia.
  - rewrite zrange_snoc, for_each_app, IH by lia.
    cbn [mbind outcome_bind for_each]. rewrite Z.add_0_l.
    rewrite load_term_mk, load_map by lia. cbn [mbind outcome_bind].
    rewrite !load_term_poly_of by lia. cbn [mbind outcome_bind].
    rewrite store_term_mk, store_map by lia.
    cbn [mbind outcome_bind mret outcome_ret]. do 4 f_equal.
    apply map_zrange_ext. intros k _.
    destruct (Z.eqb_spec k (i + Z.of_nat m)) as [->|Hk].
    + unfold Int.add, Int.mul. rewrite wrap_add_wrap. f_equal.
      replace (i + Z.of_nat m - i) with (Z.of_nat m) by lia.
      destruct (Z.leb_spec 0 (Z.of_nat m));
        destruct (Z.ltb_spec (Z.of_nat m) (Z.of_nat m));
        destruct (Z.ltb_spec (Z.of_nat m) (Z.of_nat (S m)));
        cbn [andb]; lia.
    + f_equal. f_equal.
      destruct (Z.leb_spec 0 (k - i));
        destruct (Z.ltb_spec (k - i) (Z.of_nat m));
        destruct (Z.ltb_spec (k - i) (Z.of_nat (S m)));
        cbn [andb]; try lia.
Qed.

(** The outer loop: after [m] turns cell [k] holds the sum of the first [m]
    products of coefficient [k], reduced to [int]. *)
Lemma multiply_outer_loop P Q dg :
  let n := (length P + length Q - 1)%nat in
  (0 < length Q)%nat →
  ∀ m,
    (m ≤ length P)%nat →
    for_each (zrange 0 m)
      (fun i result =>
         for_each (upto 0 (Z.of_nat (length Q) - 1))
           (fun j result =>
              cur ← load_term result (i + j);
              a ← load_term (poly_of P) i;
              b ← load_term (poly_of Q) j;
              store_term result (i + j) (Int.add cur (Int.mul a b)))
           result)
      {| terms := Init (buf (replicate n 0)); degree_ := dg |}
    = Returns
        {| terms := Init (buf ((fun k => Int.wrap (convolution_upto P Q k m))
                                 <$> zrange 0 n));
           degree_ := dg |}.
Proof.
  intros n HQ. induction m as [|m IH]; intros Hm.
  - cbn [zrange for_each]. by rewrite replicate_zeros_as_map.
  - rewrite zrange_snoc, for_each_app, IH by lia.
    cbn [mbind outcome_bind for_each]. unfold upto.
    replace (Z.to_nat (Z.of_nat (length Q) - 1 - 0 + 1)) with (length Q) by lia.
    rewrite Z.add_0_l.
    rewrite (multiply_inner_loop P Q dg n (Z.of_nat m) ltac:(lia) (length Q)
               (fun k => convolution_upto P Q k m)) by (unfold n; lia).
    cbn [mbind outcome_bind]. do 4 f_equal.
    apply map_zrange_ext. intros k _. f_equal.
    unfold convolution_upto. rewrite zsum_S. f_equal. unfold get_val.
    by destruct ((0 <=? k - Z.of_nat m) && (k - Z.of_nat m <? Z.of_nat (length Q))); lia.
Qed.

Lemma multiply_poly_of P Q :
  (0 < length P)%nat → (0 < length Q)%nat →
  multiply (poly_of P) (poly_of Q)
  = Returns (poly_of ((fun k => Int.wrap (convolution P Q k))
                        <$> zrange 0 (length P + length Q - 1))).
Proof.
  intros HP HQ. unfold multiply. cbn [poly_of degree_ rd mbind outcome_bind].
  rewrite new_zeroed_pos by lia. cbn [unwinding mbind outcome_bind].
  unfold with_terms, with_degree_. cbn [terms degree_ Polynomial_default].
  unfold upto at 1.
  replace (Z.to_nat (Z.of_nat (length P) - 1 - 0 + 1)) with (length P) by lia.
  replace (Z.to_nat (Z.of_nat (length P) - 1 + (Z.of_nat (length Q) - 1) + 1))
    with (length P + length Q - 1)%nat by lia.
  fold (poly_of P). fold (poly_of Q).
  rewrite (multiply_outer_loop P Q _ HQ (length P)) by lia.
  f_equal. apply mk_poly_of. rewrite length_fmap, zrange_length. lia.
Qed.

(** X12: on non-empty polynomials of degrees dp and dq, [operator*] always
    returns a polynomial that satisfies the class invariant, of degree
    dp + dq, whose coefficient at index k is the sum of the products
    [p_i · q_j] with i + j = k, reduced to [int]; and [operator*] is
    commutative. *)
Theorem multiply_is_convolution (p q : Polynomial) :
  valid p = true → valid q = true →
  ∃ r dp dq,
    degree p = Returns dp ∧ degree q = Returns dq
    ∧ multiply p q = Returns r
    ∧ valid r = true
    ∧ degree r = Returns (dp + dq)
    ∧ (∀ k, 0 ≤ k ≤ dp + dq →
            get r k = Returns (Int.wrap
                                 (convolution (coefficients p) (coefficients q) k)))
    ∧ multiply q p = Returns r.
Proof.
  intros Hvp Hvq.
  destruct (valid_inv p Hvp) as (Hp & Hlp & _).
  destruct (valid_inv q Hvq) as (Hq & Hlq & _).
  set (P := coefficients p) in *. set (Q := coefficients q) in *.
  rewrite Hp, Hq.
  eexists _, _, _. split_and!; [done|done|by apply multiply_poly_of|..].
  - apply valid_poly_of; [rewrite length_fmap, zrange_length; lia|].
    apply forallb_map_zrange. intros. apply wrap_range.
  - unfold degree. cbn [poly_of degree_ rd].
    rewrite length_fmap, zrange_length. f_equal. lia.
  - intros k Hk. by rewrite get_poly_of, get_val_map_zrange by lia.
  - rewrite multiply_poly_of by done.
    rewrite (Nat.add_comm (length Q)). do 2 f_equal.
    apply map_zrange_ext. intros k _. by rewrite convolution_comm.
Qed.

Lemma multiply_is_convolution_witness :
  multiply (poly_of [-4; 0; 3]) (poly_of [2; 1]) = Returns (poly_of [-8; -4; 6; 3])
  ∧ multiply (poly_of [2; 1]) (poly_of [-4; 0; 3]) = Returns (poly_of [-8; -4; 6; 3]).
Proof.
  destruct (multiply_is_convolution (poly_of [-4; 0; 3]) (poly_of [2; 1])
              eq_refl eq_refl)
    as (r & dp & dq & _ & _ & Hr & _ & _ & _ & Hr').
  rewrite Hr'. injection Hr as <-. done.
Defined.

(** ** X13: multiplying by a constant polynomial *)

Lemma convolution_constant P c k :
  0 ≤ k < Z.of_nat (length P) → convolution P [c] k = coeff_at P k * c.
Proof.
  intros Hk. unfold convolution, convolution_upto.
  rewrite (zsum_ext _ (fun i => if 0 + i =? k then coeff_at P i * c else 0)).
  - rewrite zsum_indicator, Z.sub_0_r.
    by destruct (Z.leb_spec 0 k); destruct (Z.ltb_spec k (Z.of_nat (length P)));
      cbn [andb]; try lia.
  - intros i _. unfold get_val, coeff_at. cbn [length].
    destruct (Z.eqb_spec (0 + i) k) as [He|He].
    + by replace (k - i) with 0 by lia.
    + destruct (Z.leb_spec 0 (k - i)); destruct (Z.ltb_spec (k - i) (Z.of_nat 1));
        cbn [andb]; lia.
Qed.

(** X13: multiplying a non-empty polynomial by the degree-0 polynomial with
    coefficient c, through [operator*(const Polynomial&)], returns the same
    polynomial as multiplying it by the scalar c through [operator*(T)]. *)
Theorem multiply_by_constant_is_scalar_multiple (junk : Z → Z) (p : Polynomial)
    (c : Z) :
  valid p = true →
  ∃ r, multiply p (poly_of [c]) = Returns r
     ∧ multiply_scalar junk p c = Returns r.
Proof.
  intros Hv. destruct (valid_inv p Hv) as (Hp & Hl & _).
  set (P := coefficients p) in *. rewrite Hp.
  eexists. split; [|apply multiply_scalar_poly_of].
  rewrite multiply_poly_of by (done || (simpl; lia)).
  cbn [length]. replace (length P + 1 - 1)%nat with (length P) by lia.
  do 2 f_equal. apply map_zrange_ext. intros k Hk.
  rewrite convolution_constant by lia. done.
Qed.

Lemma multiply_by_constant_is_scalar_multiple_witness :
  multiply (poly_of [-4; 0; 3]) (poly_of [5]) = Returns (poly_of [-20; 0; 15])
  ∧ multiply_scalar (fun _ => 1) (poly_of [-4; 0; 3]) 5
    = Returns (poly_of [-20; 0; 15]).
Proof.
  destruct (multiply_by_constant_is_scalar_multiple (fun _ => 1)
              (poly_of [-4; 0; 3]) 5 eq_refl) as (r & Hm & Hs).
  rewrite Hm. injection Hs as <-. done.
Defined.

(** ** X14: the derivative of a sum *)

Lemma wrap_mul_wrap_l x y : Int.wrap (Int.wrap x * y) = Int.wrap (x * y).
Proof.
  unfold Int.wrap. f_equal.
  replace (((x + 2 ^ 31) `mod` 2 ^ 32 - 2 ^ 31) * y + 2 ^ 31)
    with ((x + 2 ^ 31) `mod` 2 ^ 32 * y + (2 ^ 31 - 2 ^ 31 * y)) by lia.
  rewrite <- Zplus_mod_idemp_l, Zmult_mod_idemp_l, Zplus_mod_idemp_l.
  f_equal. lia.
Qed.

Lemma map_zrange_shift (f : Z → Z) lo n :
  f <$> zrange lo n = (fun k => f (lo + k)) <$> zrange 0 n.
Proof.
  apply list_eq. intros k. rewrite !list_lookup_fmap.
  destruct (decide (k < n)%nat) as [Hk|Hk].
  - rewrite !zrange_lookup by done. simpl. by rewrite Z.add_0_l.
  - by rewrite !lookup_ge_None_2 by (rewrite zrange_length; lia).
Qed.

Lemma get_val_derivative P k :
  0 ≤ k →
  get_val ((fun i => Int.mul (coeff_at P i) i) <$> zrange 1 (length P - 1)) k
  = Int.mul (get_val P (1 + k)) (1 + k).
Proof.
  intros Hk.
  destruct (decide (k < Z.of_nat (length P - 1))) as [Hin|Hout].
  - rewrite get_val_map_zrange_from, get_val_inside by lia. done.
  - rewrite !get_val_outside; [done|lia|].
    rewrite length_fmap, zrange_length. lia.
Qed.

(** X14: for two polynomials of degree at least 1, the derivative of their
    sum is the sum of their derivatives: both computations return the same
    polynomial. *)
Theorem derivative_of_sum (p q : Polynomial) (dp dq : Z) :
  valid p = true → valid q = true →
  degree p = Returns dp → degree q = Returns dq → 1 ≤ dp → 1 ≤ dq →
  ∃ s p' q' r,
    add p q = Returns s ∧ derivative s = Returns r
    ∧ derivative p = Returns p' ∧ derivative q = Returns q'
    ∧ add p' q' = Returns r.
Proof.
  intros Hvp Hvq Hdp Hdq H1p H1q.
  destruct (valid_inv p Hvp) as (Hp & _ & _).
  destruct (valid_inv q Hvq) as (Hq & _ & _).
  set (P := coefficients p) in *. set (Q := coefficients q) in *.
  rewrite Hp in Hdp |- *. rewrite Hq in Hdq |- *.
  injection Hdp as Hdp. injection Hdq as Hdq.
  eexists _, _, _, _. split_and!.
  - apply add_poly_of; lia.
  - apply derivative_poly_of. rewrite length_fmap, zrange_length. lia.
  - apply derivative_poly_of. lia.
  - apply derivative_poly_of. lia.
  - rewrite add_poly_of by (rewrite length_fmap, zrange_length; lia).
    rewrite !length_fmap, !zrange_length.
    replace (Nat.max (length P - 1) (length Q - 1))
      with (Nat.max (length P) (length Q) - 1)%nat by lia.
    do 2 f_equal. symmetry. etrans; [apply map_zrange_shift|].
    apply map_zrange_ext. intros k Hk. cbv beta.
    rewrite !get_val_derivative by lia.
    rewrite <- get_val_inside
      by (rewrite length_fmap, zrange_length; lia).
    rewrite get_val_map_zrange by lia.
    unfold Int.add, Int.mul.
    rewrite wrap_add_wrap, wrap_mul_wrap_l. f_equal. lia.
Qed.

Lemma derivative_of_sum_witness :
  ∃ s r, add (poly_of [-4; 0; 3]) (poly_of [2; 1]) = Returns s
       ∧ derivative s = Returns r
       ∧ add (poly_of [0; 6]) (poly_of [1]) = Returns r.
Proof.
  destruct (derivative_of_sum (poly_of [-4; 0; 3]) (poly_of [2; 1]) 2 1
              eq_refl eq_refl eq_refl eq_refl ltac:(lia) ltac:(lia))
    as (s & p' & q' & r & Hs & Hr & Hp & Hq & Ha).
  injection Hp as <-. injection Hq as <-.
  exists s, r. exact (conj Hs (conj Hr Ha)).
Defined.

(** ** X15: indexed writes never allocate *)

(** X15: the non-const [operator[]] never creates or enlarges the buffer:
    on the empty object a move leaves behind, and on a default-initialised
    object, a write [p[exp] = v] is undefined for every exponent and value;
    on a non-empty polynomial a write that returns leaves the number of
    stored coefficients as it was. *)
Theorem set_never_allocates (exp v : Z) :
  set moved_from exp v = Undefined
  ∧ set Polynomial_default exp v = Undefined
  ∧ ∀ p p', valid p = true → set p exp v = Returns p' →
            length (coefficients p') = length (coefficients p).
Proof.
  split_and!.
  - unfold set. cbn. by destruct ((exp <=? -1) && (exp >=? 0)).
  - done.
  - intros p p' Hv. destruct (valid_inv p Hv) as (Hp & _ & _).
    rewrite Hp at 1. rewrite set_poly_of.
    destruct ((0 <=? exp) && (exp <? Z.of_nat (length (coefficients p))));
      [|done].
    intros [= <-]. cbn. by rewrite length_insert.
Qed.

Lemma set_never_allocates_witness :
  length (coefficients (poly_of [-4; 7; 3])) = length (coefficients (poly_of [-4; 0; 3])).
Proof.
  exact (proj2 (proj2 (set_never_allocates 1 7))
           (poly_of [-4; 0; 3]) (poly_of [-4; 7; 3]) eq_refl eq_refl).
Defined.
